(** * faunadb/expr.go: expression trees and their JSON serialization

    A shallow embedding of [src/faunadb/expr.go].

    - Go values that reach [wrap] (the [interface{}] arguments of the
      builders and the elements of [Obj] and [Arr]) are the trees of type
      [value].  Go maps are [gmap string _]; slices are lists.  Only
      non-nil maps and slices are modelled: every map and slice the
      builders of this file create comes from a composite literal.
    - [encoding/json] is not part of the repository; the fragment of
      [json.Marshal] that these types exercise is modelled in
      [Module json] from the documented behaviour of the package,
      including the values it refuses to encode.
    - [applyOptionals] and [fn1] .. [fn4] write to a Go map through a
      reference, so they are embedded in state-passing style over a
      [store] of map objects. *)

From Stdlib Require Import Ascii String.
From stdpp Require Import gmap strings list fin_maps sorting pretty.

#[local] Set Warnings "-register-all,-clear-no-such-hyp".
#[local] Open Scope string_scope.

(** ** Errors *)

(** The dynamic types [encoding/json] names in its errors: those whose
    [MarshalJSON] method it calls, and a type it cannot encode. *)
Inductive gotype : Type :=
  | T_Obj
  | T_Arr
  | T_invalidExpr
  | T_chan.

(** Non-nil values of Go's [error] interface.  The nil error is [None] in
    [option error]. *)
Inductive error : Type :=
  | errorString (msg : string)                      (* errors.New(msg) *)
  | MarshalerError (Type_ : gotype) (Err : error)   (* *json.MarshalerError *)
  | SyntaxError (msg : string)                      (* *json.SyntaxError *)
  | UnsupportedTypeError (Type_ : gotype)           (* *json.UnsupportedTypeError *)
  | UnsupportedValueError (Str : string).           (* *json.UnsupportedValueError *)

#[global] Instance gotype_eq_dec : EqDecision gotype.
Proof. solve_decision. Defined.
#[global] Instance error_eq_dec : EqDecision error.
Proof. solve_decision. Defined.

(** [wraps e e'] : [e'] is reached from [e] by repeated [Unwrap], that is
    [e] is [e'] inside zero or more [MarshalerError] layers. *)
Inductive wraps : error → error → Prop :=
  | wraps_refl e : wraps e e
  | wraps_MarshalerError t e e' : wraps e e' → wraps (MarshalerError t e) e'.

(** ** Values and expressions *)

(** Go values that are not expressions of this file: [Obj] and [Arr] hold
    any [interface{}], also values [encoding/json] refuses, of which the
    float NaN and a channel stand for the two kinds (a value, a type).
    Finite floating-point numbers are left out. *)
Inductive literal : Type :=
  | nil_lit
  | bool_lit (b : bool)
  | int_lit (n : Z)
  | string_lit (s : string)
  | NaN_lit       (* math.NaN() *)
  | chan_lit.     (* make(chan int) *)

#[global] Instance literal_eq_dec : EqDecision literal.
Proof. solve_decision. Defined.

(** The five expression types of expr.go, and [Lit].

    Modelled from the spec: the constructor [Lit].  The types that carry a
    literal as an [Expr] are declared outside expr.go; the spec has [wrap]
    treat any other input as an opaque literal that is passed through to
    the JSON encoder unchanged, so a wrapped literal is the literal. *)
Inductive value : Type :=
  | Lit (l : literal)
  | Obj (obj : gmap string value)            (* type Obj map[string]interface{} *)
  | Arr (arr : list value)                   (* type Arr []interface{} *)
  | unescapedObj (obj : gmap string value)   (* type unescapedObj map[string]Expr *)
  | unescapedArr (arr : list value)          (* type unescapedArr []Expr *)
  | invalidExpr (err : option error).        (* type invalidExpr struct{ err error } *)

(** Modelled from the spec: [wrap], which is called by expr.go and defined
    elsewhere in the package.  The spec's contract: an input that is
    already a valid expression is returned unchanged; a raw object or
    array has every contained value wrapped recursively and the result is
    tagged as pre-wrapped; anything else is an opaque literal passed
    through unchanged.  The raw [Obj] and [Arr] are the second case. *)
Fixpoint wrap (i : value) : value :=
  match i with
  | Obj obj => unescapedObj (wrap <$> obj)
  | Arr arr => unescapedArr (wrap <$> arr)
  | unescapedObj _ | unescapedArr _ | invalidExpr _ => i
  | Lit _ => i
  end.

(** [raw i]: [i] is a raw object or array, the inputs [wrap] rebuilds. *)
Definition raw (i : value) : bool :=
  match i with
  | Obj _ | Arr _ => true
  | _ => false
  end.

(** The errors captured by the invalid nodes of a tree. *)
Fixpoint captured (v : value) : list (option error) :=
  match v with
  | Lit _ => []
  | invalidExpr err => [err]
  | Obj obj | unescapedObj obj => mjoin (map_to_list (captured <$> obj)).*2
  | Arr arr | unescapedArr arr => mjoin (captured <$> arr)
  end.

(** [contains_invalid v]: some node of [v] is an [invalidExpr]. *)
Definition contains_invalid (v : value) : bool :=
  match captured v with
  | [] => false
  | _ :: _ => true
  end.

(** A node count, used as the measure of the induction principle. *)
Fixpoint weight (v : value) : nat :=
  match v with
  | Lit _ | invalidExpr _ => 1
  | Obj obj | unescapedObj obj => S (sum_list (map_to_list (weight <$> obj)).*2)
  | Arr arr | unescapedArr arr => S (sum_list (weight <$> arr))
  end.

(** ** encoding/json *)

Module json.

(** What an encoder leaves behind: the bytes it appended, or the error it
    aborted the whole [Marshal] call with. *)
Inductive res (A : Type) : Type :=
  | Ok (a : A)
  | Fail (e : error).
Arguments Ok {A} a.
Arguments Fail {A} e.

#[global] Instance res_ret : MRet res := λ A a, Ok a.
#[global] Instance res_bind : MBind res := λ A B f r,
  match r with
  | Ok a => f a
  | Fail e => Fail e
  end.

(** The encoders run left to right and the first failure aborts. *)
Fixpoint sequence {A} (rs : list (res A)) : res (list A) :=
  match rs with
  | [] => Ok []
  | r :: rs => a ← r; as_ ← sequence rs; Ok (a :: as_)
  end.

Definition dquote : string := String "034"%char "".
Definition backslash : string := String "092"%char "".

Definition hex (n : N) : string :=
  String.substring (N.to_nat n) 1 "0123456789abcdef".

(** One byte of a string, as [appendString] writes it with HTML
    escaping on (the setting of [json.Marshal]).  Bytes from 0x80 up are
    copied: strings are taken to be valid UTF-8 without U+2028 and
    U+2029, the code points the encoder rewrites. *)
Definition appendByte (b : ascii) : string :=
  let n := N_of_ascii b in
  if bool_decide (n = 92 ∨ n = 34)%N then backslash +:+ String b ""
  else if bool_decide (n = 8)%N then backslash +:+ "b"
  else if bool_decide (n = 12)%N then backslash +:+ "f"
  else if bool_decide (n = 10)%N then backslash +:+ "n"
  else if bool_decide (n = 13)%N then backslash +:+ "r"
  else if bool_decide (n = 9)%N then backslash +:+ "t"
  else if bool_decide (n < 32 ∨ n = 60 ∨ n = 62 ∨ n = 38)%N
    then backslash +:+ "u00" +:+ hex (n / 16) +:+ hex (n mod 16)
  else String b "".

Fixpoint escape (s : string) : string :=
  match s with
  | EmptyString => ""
  | String b s => appendByte b +:+ escape s
  end.

Definition appendString (s : string) : string := dquote +:+ escape s +:+ dquote.

(** The encoders of the literals; the float encoder refuses NaN and there
    is no encoder for a channel. *)
Definition literalEncoder (l : literal) : res string :=
  match l with
  | nil_lit => Ok "null"
  | bool_lit true => Ok "true"
  | bool_lit false => Ok "false"
  | int_lit n => Ok (pretty n)
  | string_lit s => Ok (appendString s)
  | NaN_lit => Fail (UnsupportedValueError "NaN")
  | chan_lit => Fail (UnsupportedTypeError T_chan)
  end.

(** The text of a JSON object with the given members, and of a JSON
    array with the given elements, each already encoded. *)
Definition object (members : list (string * string)) : string :=
  "{" +:+ String.concat "," ((λ kv, appendString kv.1 +:+ ":" +:+ kv.2) <$> members)
  +:+ "}".

Definition array (elems : list string) : string :=
  "[" +:+ String.concat "," elems +:+ "]".

(** The map encoder extracts the keys and sorts them (bytewise). *)
Definition sorted_keys {A} (m : gmap string A) : list string :=
  merge_sort String.le (elements (dom m)).

Definition sorted_members {A} (m : gmap string A) : list (string * A) :=
  omap (λ k, (k,.) <$> m !! k) (sorted_keys m).

Definition member (kv : string * res string) : res (string * string) :=
  b ← kv.2; Ok (kv.1, b).

(** [mapEncoder], given the outcome of the element encoder per key. *)
Definition mapEncoder (m : gmap string (res string)) : res string :=
  members ← sequence (member <$> sorted_members m);
  Ok (object members).

(** [sliceEncoder], given the outcome of the element encoder per index. *)
Definition sliceEncoder (l : list (res string)) : res string :=
  elems ← sequence l;
  Ok (array elems).

(** [compact] on the bytes a [MarshalJSON] method returned.  Every
    non-empty byte string such a method returns in this program was
    produced by [json.Marshal] itself: valid, compact and HTML-escaped, so
    it is copied as it is.  No bytes at all is not a JSON value. *)
Definition compact (b : string) : res string :=
  match b with
  | EmptyString => Fail (SyntaxError "unexpected end of JSON input")
  | _ => Ok b
  end.

(** [marshalerEncoder], given what the value's [MarshalJSON] returned. *)
Definition marshalerEncoder (t : gotype) (r : string * option error) : res string :=
  match r with
  | (b, None) =>
      match compact b with
      | Ok out => Ok out
      | Fail err => Fail (MarshalerError t err)
      end
  | (_, Some err) => Fail (MarshalerError t err)
  end.

(** The pair [Marshal] returns: the bytes and a nil error, or nil bytes
    and the error. *)
Definition returned (r : res string) : string * option error :=
  match r with
  | Ok b => (b, None)
  | Fail err => ("", Some err)
  end.

End json.

Import json.

(** [reflectValue wrapped v] is the encoder run on [v] ([wrapped = false])
    or on [wrap v] ([wrapped = true]).  A [Marshaler] ([Obj], [Arr],
    [invalidExpr]) goes through [marshalerEncoder] with the result of its
    [MarshalJSON]; for [Obj] and [Arr] that method is [json.Marshal] of the
    wrapped value, which is the map or slice encoder over the wrapped
    elements.  Lemmas [reflectValue_wrap] and [reflectValue_Marshaler] below
    recover the two calls as the source has them. *)
Fixpoint reflectValue (wrapped : bool) (v : value) : res string :=
  match v with
  | Lit l => literalEncoder l
  | unescapedObj obj => mapEncoder (reflectValue false <$> obj)
  | unescapedArr arr => sliceEncoder (reflectValue false <$> arr)
  | invalidExpr err => marshalerEncoder T_invalidExpr ("", err)
  | Obj obj =>
      let r := mapEncoder (reflectValue true <$> obj) in
      if wrapped then r else marshalerEncoder T_Obj (returned r)
  | Arr arr =>
      let r := sliceEncoder (reflectValue true <$> arr) in
      if wrapped then r else marshalerEncoder T_Arr (returned r)
  end.

(** [json.Marshal]. *)
Definition json_Marshal (v : value) : string * option error :=
  returned (reflectValue false v).

(** ** expr.go *)

(** func (inv invalidExpr) MarshalJSON() ([]byte, error) *)
Definition invalidExpr_MarshalJSON (inv_err : option error) : string * option error :=
  ("", inv_err).

(** func (obj Obj) MarshalJSON() ([]byte, error) *)
Definition Obj_MarshalJSON (obj : gmap string value) : string * option error :=
  json_Marshal (wrap (Obj obj)).

(** func (arr Arr) MarshalJSON() ([]byte, error) *)
Definition Arr_MarshalJSON (arr : list value) : string * option error :=
  json_Marshal (wrap (Arr arr)).

(** The [MarshalJSON] method of a value, when its type has one. *)
Definition MarshalJSON (v : value) : option (gotype * (string * option error)) :=
  match v with
  | invalidExpr err => Some (T_invalidExpr, invalidExpr_MarshalJSON err)
  | Obj obj => Some (T_Obj, Obj_MarshalJSON obj)
  | Arr arr => Some (T_Arr, Arr_MarshalJSON arr)
  | Lit _ | unescapedObj _ | unescapedArr _ => None
  end.

(** The five [String] methods: [byte, _ := ...; return string(byte)]. *)
Definition unescapedObj_String (obj : gmap string value) : string :=
  let '(byte, _) := json_Marshal (unescapedObj obj) in byte.

Definition unescapedArr_String (arr : list value) : string :=
  let '(byte, _) := json_Marshal (unescapedArr arr) in byte.

Definition invalidExpr_String (inv_err : option error) : string :=
  let '(byte, _) := invalidExpr_MarshalJSON inv_err in byte.

Definition Obj_String (obj : gmap string value) : string :=
  let '(byte, _) := Obj_MarshalJSON obj in byte.

Definition Arr_String (arr : list value) : string :=
  let '(byte, _) := Arr_MarshalJSON arr in byte.

(** ** Function-call nodes

    A Go map is a reference.  [applyOptionals] hands the map it received to
    each modifier, which writes to it, and returns that same map; the
    objects it works on therefore live in a [store], and an
    [unescapedObj] variable is the address [loc] of its object.  The
    entries of an object are trees held by value: nothing in this file
    writes to an object other than the one handed to [applyOptionals]. *)

Abbreviation loc := positive.
Abbreviation store := (gmap loc (gmap string value)).

(** The object a reference denotes in a store. *)
Definition deref (σ : store) (fn : loc) : value := unescapedObj (σ !!! fn).

(** type OptionalParameter func(unescapedObj): a procedure that is given
    the reference and may write to the store. *)
Definition OptionalParameter : Type := loc → store → store.

(** func applyOptionals(options []OptionalParameter, fn unescapedObj) Expr *)
Fixpoint applyOptionals (options : list OptionalParameter) (fn : loc) (σ : store)
  : loc * store :=
  match options with
  | [] => (fn, σ)
  | option :: options => applyOptionals options fn (option fn σ)
  end.

(** A composite literal [unescapedObj{...}] allocates a new map. *)
Definition alloc (obj : gmap string value) (σ : store) : loc * store :=
  let fn := fresh (dom σ) in (fn, <[fn := obj]> σ).

(** The entries of a map literal are stored in the order written, as the gc
    compiler does; with pairwise distinct keys the order does not matter. *)
Definition fn1 (k1 : string) (v1 : value) (options : list OptionalParameter)
  (σ : store) : loc * store :=
  let '(fn, σ) := alloc (<[k1 := wrap v1]> ∅) σ in
  applyOptionals options fn σ.

Definition fn2 (k1 : string) (v1 : value) (k2 : string) (v2 : value)
  (options : list OptionalParameter) (σ : store) : loc * store :=
  let '(fn, σ) := alloc (<[k2 := wrap v2]> (<[k1 := wrap v1]> ∅)) σ in
  applyOptionals options fn σ.

Definition fn3 (k1 : string) (v1 : value) (k2 : string) (v2 : value)
  (k3 : string) (v3 : value)
  (options : list OptionalParameter) (σ : store) : loc * store :=
  let '(fn, σ) :=
    alloc (<[k3 := wrap v3]> (<[k2 := wrap v2]> (<[k1 := wrap v1]> ∅))) σ in
  applyOptionals options fn σ.

Definition fn4 (k1 : string) (v1 : value) (k2 : string) (v2 : value)
  (k3 : string) (v3 : value) (k4 : string) (v4 : value)
  (options : list OptionalParameter) (σ : store) : loc * store :=
  let '(fn, σ) :=
    alloc (<[k4 := wrap v4]> (<[k3 := wrap v3]>
            (<[k2 := wrap v2]> (<[k1 := wrap v1]> ∅)))) σ in
  applyOptionals options fn σ.

(** The modifier [func(fn unescapedObj) { fn[k] = e }]. *)
Definition set_key (k : string) (e : value) : OptionalParameter :=
  λ fn σ, <[fn := <[k := e]> (σ !!! fn)]> σ.

(** A modifier is [local] when it writes to no object but the one it is
    handed. *)
Definition local (option : OptionalParameter) : Prop :=
  ∀ fn σ l, l ≠ fn → option fn σ !! l = σ !! l.

(** [String] on a reference reads the object and writes nothing. *)
Definition String_ref (fn : loc) (σ : store) : string * store :=
  (unescapedObj_String (σ !!! fn), σ).

(** ** Notions used in the statements *)

(** The error an invalid node makes its [marshalerEncoder] report: the
    captured one, or the complaint of [compact] about no bytes when the
    captured error is nil. *)
Definition cause (o : option error) : error :=
  match o with
  | Some err => err
  | None => SyntaxError "unexpected end of JSON input"
  end.

(** The errors of the literals of a tree that the encoder refuses. *)
Fixpoint rejects (v : value) : list error :=
  match v with
  | Lit l => match literalEncoder l with Fail e => [e] | Ok _ => [] end
  | invalidExpr _ => []
  | Obj obj | unescapedObj obj => mjoin (map_to_list (rejects <$> obj)).*2
  | Arr arr | unescapedArr arr => mjoin (rejects <$> arr)
  end.

(** [representable v]: [v] holds only JSON-representable values, that is
    no invalid node and no literal the encoder refuses. *)
Definition representable (v : value) : bool :=
  match captured v, rejects v with
  | [], [] => true
  | _, _ => false
  end.

(** [outcome cs us r]: an encoder result [r] agrees with the captured
    errors [cs] and the refused literals [us] of the tree it was run on: it
    succeeds when there are none, and its error is the report of an invalid
    node, or the error of a refused literal, inside zero or more
    [MarshalerError] layers. *)
Definition outcome (cs : list (option error)) (us : list error) (r : res string) : Prop :=
  match r with
  | Ok _ => cs = [] ∧ us = []
  | Fail e =>
      (∃ o, o ∈ cs ∧ wraps e (MarshalerError T_invalidExpr (cause o))) ∨
      (∃ e0, e0 ∈ us ∧ wraps e e0)
  end.

(** [from_leaf v e]: the error [e] comes from a leaf of [v]: it is the
    report of one of its invalid nodes, or the error of one of its refused
    literals, inside zero or more [MarshalerError] layers. *)
Definition from_leaf (v : value) (e : error) : Prop :=
  outcome (captured v) (rejects v) (Fail e).

(** The object a map literal with the given entries denotes. *)
Definition literal_obj (pairs : list (string * value)) : gmap string value :=
  foldl (λ obj kv, <[kv.1 := wrap kv.2]> obj) ∅ pairs.

(** * Properties *)

(** ** Induction on trees *)

Lemma sum_list_elem_le (x : nat) (l : list nat) : x ∈ l → (x ≤ sum_list l)%nat.
Proof.
  induction 1 as [|y z l _ IH]; simpl; lia.
Qed.

Lemma weight_lookup (obj : gmap string value) k v :
  obj !! k = Some v → (weight v ≤ sum_list (map_to_list (weight <$> obj)).*2)%nat.
Proof.
  intros Hk. apply sum_list_elem_le.
  apply list_elem_of_fmap. exists (k, weight v). split; [done|].
  apply elem_of_map_to_list. by rewrite lookup_fmap, Hk.
Qed.

Lemma weight_elem (arr : list value) v :
  v ∈ arr → (weight v ≤ sum_list (weight <$> arr))%nat.
Proof.
  intros Hv. apply sum_list_elem_le, list_elem_of_fmap. eauto.
Qed.

Lemma value_ind' (P : value → Prop) :
  (∀ l, P (Lit l)) →
  (∀ obj, map_Forall (λ _, P) obj → P (Obj obj)) →
  (∀ arr, Forall P arr → P (Arr arr)) →
  (∀ obj, map_Forall (λ _, P) obj → P (unescapedObj obj)) →
  (∀ arr, Forall P arr → P (unescapedArr arr)) →
  (∀ err, P (invalidExpr err)) →
  ∀ v, P v.
Proof.
  intros HL HO HA HUO HUA HI v.
  remember (weight v) as n eqn:Hn. revert v Hn.
  induction n as [n IH] using lt_wf_ind. intros v ->.
  destruct v as [l|obj|arr|obj|arr|err]; [apply HL| | | | |apply HI].
  - apply HO. intros k v Hk. eapply IH; [|done].
    simpl. pose proof (weight_lookup _ _ _ Hk). lia.
  - apply HA. apply Forall_forall. intros v Hv. eapply IH; [|done].
    simpl. pose proof (weight_elem _ _ Hv). lia.
  - apply HUO. intros k v Hk. eapply IH; [|done].
    simpl. pose proof (weight_lookup _ _ _ Hk). lia.
  - apply HUA. apply Forall_forall. intros v Hv. eapply IH; [|done].
    simpl. pose proof (weight_elem _ _ Hv). lia.
Qed.

(** ** The encoders *)

Section encoders.
Context {A : Type}.
Implicit Types (rs : list (res A)) (xs : list A).

Lemma sequence_Ok_fmap xs : sequence (Ok <$> xs) = Ok xs.
Proof. induction xs as [|x xs IH]; csimpl; [done|]. by rewrite IH. Qed.

Lemma sequence_Ok_inv rs xs : sequence rs = Ok xs → rs = Ok <$> xs.
Proof.
  revert xs. induction rs as [|[a|e] rs IH]; intros xs; csimpl.
  - by intros [= <-].
  - destruct (sequence rs) as [as_|e] eqn:Hrs; simpl; [|done].
    intros [= <-]. by rewrite (IH as_).
  - done.
Qed.

Lemma sequence_Fail_inv rs e : sequence rs = Fail e → Fail e ∈ rs.
Proof.
  induction rs as [|[a|e'] rs IH]; csimpl; [done| |].
  - destruct (sequence rs) as [as_|e''] eqn:Hrs; simpl; [done|].
    intros [= ->]. right. by apply IH.
  - intros [= ->]. left.
Qed.

Lemma sorted_keys_elem (m : gmap string A) k : k ∈ sorted_keys m ↔ is_Some (m !! k).
Proof.
  unfold sorted_keys. rewrite merge_sort_Permutation, elem_of_elements.
  apply elem_of_dom.
Qed.

Lemma sorted_members_elem (m : gmap string A) k x :
  (k, x) ∈ sorted_members m ↔ m !! k = Some x.
Proof.
  unfold sorted_members. rewrite list_elem_of_omap. split.
  - intros (k' & _ & Hk'). destruct (m !! k') eqn:E; simplify_eq/=. done.
  - intros Hk. exists k. split; [apply sorted_keys_elem; eauto|].
    by rewrite Hk.
Qed.

Lemma sorted_members_keys (m : gmap string A) :
  (sorted_members m).*1 = sorted_keys m.
Proof.
  unfold sorted_members.
  assert (Forall (λ k, is_Some (m !! k)) (sorted_keys m)) as Hks.
  { apply Forall_forall. intros k. apply sorted_keys_elem. }
  induction Hks as [|k ks [x Hx] _ IH]; csimpl; [done|].
  rewrite Hx. csimpl. by rewrite IH.
Qed.

Lemma sorted_members_fmap {B} (f : A → B) (m : gmap string A) :
  sorted_members (f <$> m) = prod_map id f <$> sorted_members m.
Proof.
  unfold sorted_members, sorted_keys. rewrite dom_fmap_L.
  induction (merge_sort String.le (elements (dom m))) as [|k ks IH]; csimpl; [done|].
  rewrite lookup_fmap. destruct (m !! k); csimpl; by rewrite IH.
Qed.

End encoders.

Lemma member_Ok_fmap (l : list (string * string)) :
  member <$> (prod_map id Ok <$> l) = Ok <$> l.
Proof. induction l as [|[k b] l IH]; csimpl; [done|]. by rewrite IH. Qed.

Lemma mapEncoder_Ok_fmap (bs : gmap string string) :
  mapEncoder (Ok <$> bs) = Ok (object (sorted_members bs)).
Proof.
  unfold mapEncoder.
  by rewrite sorted_members_fmap, member_Ok_fmap, sequence_Ok_fmap.
Qed.

Lemma mapEncoder_Ok_inv (m : gmap string (res string)) b :
  mapEncoder m = Ok b →
  ∃ bs : gmap string string, m = Ok <$> bs ∧ b = object (sorted_members bs).
Proof.
  unfold mapEncoder. intros Hm.
  destruct (sequence _) as [members|e] eqn:Hseq; simplify_eq/=.
  apply sequence_Ok_inv in Hseq.
  assert (∀ k r, m !! k = Some r → ∃ x, r = Ok x) as Hall.
  { intros k r Hk. apply sorted_members_elem in Hk.
    apply (list_elem_of_fmap_2 member) in Hk. rewrite Hseq in Hk.
    apply list_elem_of_fmap in Hk as ((k' & x) & Hkx & _).
    destruct r; simplify_eq/=. eauto. }
  set (bs := omap (λ r, match r with Ok x => Some x | Fail _ => None end) m).
  assert (m = Ok <$> bs) as Hbs.
  { apply map_eq. intros k. unfold bs. rewrite lookup_fmap, lookup_omap.
    destruct (m !! k) as [r|] eqn:Hk; simpl; [|done].
    destruct (Hall _ _ Hk) as [x ->]. done. }
  exists bs. split; [done|].
  rewrite Hbs, sorted_members_fmap, member_Ok_fmap in Hseq.
  apply (list_fmap_eq_inj Ok) in Hseq; [|by intros ?? [= ->]]. by rewrite Hseq.
Qed.

Lemma mapEncoder_Fail_inv (m : gmap string (res string)) e :
  mapEncoder m = Fail e → ∃ k, m !! k = Some (Fail e).
Proof.
  unfold mapEncoder. intros Hm.
  destruct (sequence _) as [members|e'] eqn:Hseq; simplify_eq/=.
  apply sequence_Fail_inv, list_elem_of_fmap in Hseq as ((k & r) & Hr & Hk).
  apply sorted_members_elem in Hk. exists k.
  destruct r; unfold member in Hr; simplify_eq/=. done.
Qed.

Lemma sliceEncoder_Ok_fmap (bs : list string) :
  sliceEncoder (Ok <$> bs) = Ok (array bs).
Proof. unfold sliceEncoder. by rewrite sequence_Ok_fmap. Qed.

Lemma sliceEncoder_Ok_inv (l : list (res string)) b :
  sliceEncoder l = Ok b → ∃ bs, l = Ok <$> bs ∧ b = array bs.
Proof.
  unfold sliceEncoder. intros Hl.
  destruct (sequence l) as [elems|e] eqn:Hseq; simplify_eq/=.
  apply sequence_Ok_inv in Hseq. eauto.
Qed.

Lemma sliceEncoder_Fail_inv (l : list (res string)) e :
  sliceEncoder l = Fail e → Fail e ∈ l.
Proof.
  unfold sliceEncoder. intros Hl.
  destruct (sequence l) as [elems|e'] eqn:Hseq; simplify_eq/=.
  by apply sequence_Fail_inv.
Qed.

(** ** wrap and the encoder *)

Lemma wrap_not_raw i : raw (wrap i) = false.
Proof. by destruct i. Qed.

Lemma wrap_id i : raw i = false → wrap i = i.
Proof. by destruct i. Qed.

Lemma wrap_wrap i : wrap (wrap i) = wrap i.
Proof. apply wrap_id, wrap_not_raw. Qed.

(** The encoder run in wrapped mode is the encoder run on the wrapped
    value. *)
Lemma reflectValue_wrap v : reflectValue true v = reflectValue false (wrap v).
Proof.
  induction v as [l|obj IH|arr IH|obj _|arr _|err] using value_ind'; try done.
  - simpl. f_equal. rewrite <-map_fmap_compose.
    apply map_fmap_ext. intros k v Hk. exact (IH k v Hk).
  - simpl. f_equal. rewrite <-list_fmap_compose.
    apply Forall_fmap_ext_1. done.
Qed.

(** [json.Marshal] of a [Marshaler] calls its [MarshalJSON] and hands the
    result to [marshalerEncoder]. *)
Lemma reflectValue_Marshaler v t r :
  MarshalJSON v = Some (t, r) → reflectValue false v = marshalerEncoder t r.
Proof.
  destruct v as [l|obj|arr|obj|arr|err]; intros Hv; simplify_eq/=; [| |done].
  - unfold Obj_MarshalJSON, json_Marshal. by rewrite <-reflectValue_wrap.
  - unfold Arr_MarshalJSON, json_Marshal. by rewrite <-reflectValue_wrap.
Qed.

(** What [compact] is given: a [MarshalJSON] method of this file that
    reports no error returns no bytes at all ([invalidExpr] with the nil
    error) or the text of an object or array written by the encoder. *)
Lemma MarshalJSON_bytes v t b :
  MarshalJSON v = Some (t, (b, None)) →
  b = "" ∨ (∃ members, b = object members) ∨ (∃ elems, b = array elems).
Proof.
  destruct v as [l|obj|arr|obj|arr|err]; simpl; intros Hv; try discriminate.
  - injection Hv as _ Hr. right. left. revert Hr.
    unfold Obj_MarshalJSON, json_Marshal. simpl.
    destruct (mapEncoder (reflectValue false <$> (wrap <$> obj)))
      as [b'|e] eqn:Hm; simpl; intros [= <-].
    apply mapEncoder_Ok_inv in Hm as (bs & _ & ->). eauto.
  - injection Hv as _ Hr. right. right. revert Hr.
    unfold Arr_MarshalJSON, json_Marshal. simpl.
    destruct (sliceEncoder (reflectValue false <$> (wrap <$> arr)))
      as [b'|e] eqn:Hm; simpl; intros [= <-].
    apply sliceEncoder_Ok_inv in Hm as (bs & _ & ->). eauto.
  - injection Hv as _ Hr. unfold invalidExpr_MarshalJSON in Hr. left. congruence.
Qed.

Lemma gathered_obj_elem {X} (f : value → list X) (obj : gmap string value) x :
  x ∈ mjoin (map_to_list (f <$> obj)).*2 ↔ ∃ k v, obj !! k = Some v ∧ x ∈ f v.
Proof.
  rewrite list_elem_of_join. split.
  - intros (xs & Hx & Hxs). apply list_elem_of_fmap in Hxs as ((k & xs') & -> & Hk).
    apply elem_of_map_to_list in Hk. rewrite lookup_fmap in Hk.
    destruct (obj !! k) as [v|] eqn:Hv; simplify_eq/=. eauto.
  - intros (k & v & Hk & Hx). exists (f v). split; [done|].
    apply list_elem_of_fmap. exists (k, f v). split; [done|].
    apply elem_of_map_to_list. by rewrite lookup_fmap, Hk.
Qed.

Lemma gathered_arr_elem {X} (f : value → list X) (arr : list value) x :
  x ∈ mjoin (f <$> arr) ↔ ∃ v, v ∈ arr ∧ x ∈ f v.
Proof.
  rewrite list_elem_of_join. split.
  - intros (xs & Hx & Hxs). apply list_elem_of_fmap in Hxs as (v & -> & Hv). eauto.
  - intros (v & Hv & Hx). exists (f v). split; [done|].
    apply list_elem_of_fmap. eauto.
Qed.

Lemma captured_obj_elem (obj : gmap string value) o :
  o ∈ mjoin (map_to_list (captured <$> obj)).*2 ↔
  ∃ k v, obj !! k = Some v ∧ o ∈ captured v.
Proof. apply gathered_obj_elem. Qed.

Lemma captured_arr_elem (arr : list value) o :
  o ∈ mjoin (captured <$> arr) ↔ ∃ v, v ∈ arr ∧ o ∈ captured v.
Proof. apply gathered_arr_elem. Qed.

Lemma outcome_mapEncoder (f : value → res string) (obj : gmap string value) :
  map_Forall (λ _ v, outcome (captured v) (rejects v) (f v)) obj →
  outcome (mjoin (map_to_list (captured <$> obj)).*2)
          (mjoin (map_to_list (rejects <$> obj)).*2) (mapEncoder (f <$> obj)).
Proof.
  intros IH. destruct (mapEncoder (f <$> obj)) as [b|e] eqn:Hm; simpl.
  - apply mapEncoder_Ok_inv in Hm as (bs & Hbs & _).
    assert (∀ k v, obj !! k = Some v → captured v = [] ∧ rejects v = []) as Hall.
    { intros k v Hk. specialize (IH k v Hk). simpl in IH.
      assert ((f <$> obj) !! k = (Ok <$> bs) !! k) as Hfk by by rewrite Hbs.
      rewrite !lookup_fmap, Hk in Hfk. destruct (bs !! k); simplify_eq/=.
      by rewrite Hfk in IH. }
    split; apply elem_of_nil_inv; intros x (k & v & Hk & Hx)%gathered_obj_elem;
      destruct (Hall k v Hk) as [Hc Hr].
    + rewrite Hc in Hx. by apply elem_of_nil in Hx.
    + rewrite Hr in Hx. by apply elem_of_nil in Hx.
  - apply mapEncoder_Fail_inv in Hm as (k & Hk). rewrite lookup_fmap in Hk.
    destruct (obj !! k) as [v|] eqn:Hv; simplify_eq/=.
    specialize (IH k v Hv). simpl in IH. rewrite Hk in IH.
    destruct IH as [(o & Ho & Hw)|(e0 & He0 & Hw)].
    + left. exists o. split; [|done]. apply gathered_obj_elem. eauto.
    + right. exists e0. split; [|done]. apply gathered_obj_elem. eauto.
Qed.

Lemma outcome_sliceEncoder (f : value → res string) (arr : list value) :
  Forall (λ v, outcome (captured v) (rejects v) (f v)) arr →
  outcome (mjoin (captured <$> arr)) (mjoin (rejects <$> arr))
          (sliceEncoder (f <$> arr)).
Proof.
  intros IH. rewrite Forall_forall in IH.
  destruct (sliceEncoder (f <$> arr)) as [b|e] eqn:Hm; simpl.
  - apply sliceEncoder_Ok_inv in Hm as (bs & Hbs & _).
    assert (∀ v, v ∈ arr → captured v = [] ∧ rejects v = []) as Hall.
    { intros v Hv. specialize (IH v Hv).
      assert (f v ∈ Ok <$> bs) as Hfv.
      { rewrite <-Hbs. by apply list_elem_of_fmap_2. }
      apply list_elem_of_fmap in Hfv as (b' & Hfv & _). by rewrite Hfv in IH. }
    split; apply elem_of_nil_inv; intros x (v & Hv & Hx)%gathered_arr_elem;
      destruct (Hall v Hv) as [Hc Hr].
    + rewrite Hc in Hx. by apply elem_of_nil in Hx.
    + rewrite Hr in Hx. by apply elem_of_nil in Hx.
  - apply sliceEncoder_Fail_inv, list_elem_of_fmap in Hm as (v & Hfv & Hv).
    specialize (IH v Hv). rewrite <-Hfv in IH.
    destruct IH as [(o & Ho & Hw)|(e0 & He0 & Hw)].
    + left. exists o. split; [|done]. apply gathered_arr_elem. eauto.
    + right. exists e0. split; [|done]. apply gathered_arr_elem. eauto.
Qed.

Lemma outcome_Fail_layer t cs us e :
  outcome cs us (Fail e) → outcome cs us (Fail (MarshalerError t e)).
Proof.
  intros [(o & Ho & Hw)|(e0 & He0 & Hw)]; [left|right]; eexists;
    (split; [eassumption|by constructor]).
Qed.

(** The bytes of an object or an array are never empty, so [compact]
    passes them on. *)
Lemma outcome_marshalerEncoder_map t cs us (m : gmap string (res string)) :
  outcome cs us (mapEncoder m) →
  outcome cs us (marshalerEncoder t (returned (mapEncoder m))).
Proof.
  destruct (mapEncoder m) as [b|e] eqn:Hm; simpl.
  - apply mapEncoder_Ok_inv in Hm as (bs & _ & ->). done.
  - apply outcome_Fail_layer.
Qed.

Lemma outcome_marshalerEncoder_slice t cs us (l : list (res string)) :
  outcome cs us (sliceEncoder l) →
  outcome cs us (marshalerEncoder t (returned (sliceEncoder l))).
Proof.
  destruct (sliceEncoder l) as [b|e] eqn:Hm; simpl.
  - apply sliceEncoder_Ok_inv in Hm as (bs & _ & ->). done.
  - apply outcome_Fail_layer.
Qed.

(** The encoder succeeds exactly on the trees without an invalid node and
    without a refused literal, and when it fails the error comes from one of
    those leaves. *)
Lemma reflectValue_outcome v wrapped :
  outcome (captured v) (rejects v) (reflectValue wrapped v).
Proof.
  revert wrapped.
  induction v as [l|obj IH|arr IH|obj IH|arr IH|err] using value_ind';
    intros wrapped.
  - simpl. destruct (literalEncoder l) as [b|e]; simpl; [done|].
    right. exists e. split; [set_solver|constructor].
  - simpl. assert (outcome (captured (Obj obj)) (rejects (Obj obj))
      (mapEncoder (reflectValue true <$> obj))) as Hr.
    { apply outcome_mapEncoder. intros k v Hk. exact (IH k v Hk true). }
    destruct wrapped; [done|]. by apply outcome_marshalerEncoder_map.
  - simpl. assert (outcome (captured (Arr arr)) (rejects (Arr arr))
      (sliceEncoder (reflectValue true <$> arr))) as Hr.
    { apply outcome_sliceEncoder. eapply Forall_impl; [exact IH|]. naive_solver. }
    destruct wrapped; [done|]. by apply outcome_marshalerEncoder_slice.
  - simpl. apply outcome_mapEncoder. intros k v Hk. exact (IH k v Hk false).
  - simpl. apply outcome_sliceEncoder. eapply Forall_impl; [exact IH|]. naive_solver.
  - destruct err as [e|]; simpl.
    + left. exists (Some e). split; [set_solver|constructor].
    + left. exists None. split; [set_solver|constructor].
Qed.

Lemma json_Marshal_outcome v :
  match json_Marshal v with
  | (b, None) => captured v = [] ∧ rejects v = []
  | (b, Some e) => b = "" ∧ from_leaf v e
  end.
Proof.
  unfold json_Marshal. pose proof (reflectValue_outcome v false) as H.
  destruct (reflectValue false v); simpl; auto.
Qed.

Lemma json_Marshal_wrap_outcome v :
  match json_Marshal (wrap v) with
  | (b, None) => captured v = [] ∧ rejects v = []
  | (b, Some e) => b = "" ∧ from_leaf v e
  end.
Proof.
  unfold json_Marshal. rewrite <-reflectValue_wrap.
  pose proof (reflectValue_outcome v true) as H.
  destruct (reflectValue true v); simpl; auto.
Qed.

Lemma contains_invalid_true v : contains_invalid v = true ↔ captured v ≠ [].
Proof. unfold contains_invalid. by destruct (captured v). Qed.

Lemma contains_invalid_false v : contains_invalid v = false ↔ captured v = [].
Proof. unfold contains_invalid. by destruct (captured v). Qed.

Lemma representable_true v :
  representable v = true ↔ captured v = [] ∧ rejects v = [].
Proof.
  unfold representable. destruct (captured v), (rejects v); naive_solver.
Qed.

Lemma representable_false v :
  representable v = false ↔ captured v ≠ [] ∨ rejects v ≠ [].
Proof.
  unfold representable. destruct (captured v), (rejects v); naive_solver.
Qed.

Lemma contains_invalid_unrepresentable v :
  contains_invalid v = true → representable v = false.
Proof. intros Hv%contains_invalid_true. apply representable_false. by left. Qed.

(** [json.Marshal] of a tree, and of the wrapped tree, fails when the tree
    holds an invalid node or a refused literal. *)
Lemma json_Marshal_unrepresentable v :
  representable v = false →
  ∃ e, json_Marshal v = ("", Some e) ∧ from_leaf v e.
Proof.
  intros Hv%representable_false. pose proof (json_Marshal_outcome v) as H.
  destruct (json_Marshal v) as [b [e|]].
  - destruct H as [-> H]. eauto.
  - destruct H as [Hc Hr]. naive_solver.
Qed.

Lemma json_Marshal_wrap_unrepresentable v :
  representable v = false →
  ∃ e, json_Marshal (wrap v) = ("", Some e) ∧ from_leaf v e.
Proof.
  intros Hv%representable_false. pose proof (json_Marshal_wrap_outcome v) as H.
  destruct (json_Marshal (wrap v)) as [b [e|]].
  - destruct H as [-> H]. eauto.
  - destruct H as [Hc Hr]. naive_solver.
Qed.

Lemma json_Marshal_invalid v :
  contains_invalid v = true →
  ∃ e, json_Marshal v = ("", Some e) ∧ from_leaf v e.
Proof. intros Hv. by apply json_Marshal_unrepresentable, contains_invalid_unrepresentable. Qed.

Lemma json_Marshal_wrap_invalid v :
  contains_invalid v = true →
  ∃ e, json_Marshal (wrap v) = ("", Some e) ∧ from_leaf v e.
Proof.
  intros Hv. by apply json_Marshal_wrap_unrepresentable, contains_invalid_unrepresentable.
Qed.

(** Without a refused literal the error is the report of an invalid node. *)
Lemma from_leaf_captured v e :
  rejects v = [] → from_leaf v e →
  ∃ o, o ∈ captured v ∧ wraps e (MarshalerError T_invalidExpr (cause o)).
Proof.
  intros Hr [H|(e0 & He0 & _)]; [done|]. rewrite Hr in He0.
  by apply elem_of_nil in He0.
Qed.

(** ... and succeeds when it holds neither. *)
Lemma json_Marshal_valid v :
  representable v = true → ∃ b, json_Marshal v = (b, None).
Proof.
  intros [Hc Hr]%representable_true. pose proof (json_Marshal_outcome v) as H.
  destruct (json_Marshal v) as [b [e|]]; [|eauto].
  destruct H as (_ & [(o & Ho & _)|(e0 & He0 & _)]).
  - rewrite Hc in Ho. by apply elem_of_nil in Ho.
  - rewrite Hr in He0. by apply elem_of_nil in He0.
Qed.

Lemma json_Marshal_wrap_valid v :
  representable v = true → ∃ b, json_Marshal (wrap v) = (b, None).
Proof.
  intros [Hc Hr]%representable_true. pose proof (json_Marshal_wrap_outcome v) as H.
  destruct (json_Marshal (wrap v)) as [b [e|]]; [|eauto].
  destruct H as (_ & [(o & Ho & _)|(e0 & He0 & _)]).
  - rewrite Hc in Ho. by apply elem_of_nil in Ho.
  - rewrite Hr in He0. by apply elem_of_nil in He0.
Qed.

(** ** Serializing wrapped objects and arrays *)

Lemma json_Marshal_error_no_bytes v :
  (json_Marshal v).2 ≠ None → (json_Marshal v).1 = "".
Proof. unfold json_Marshal. by destruct (reflectValue false v). Qed.

Lemma gathered_obj_nil {X} (f : value → list X) (obj : gmap string value) k v :
  mjoin (map_to_list (f <$> obj)).*2 = [] → obj !! k = Some v → f v = [].
Proof.
  intros Hobj Hk. apply elem_of_nil_inv. intros x Hx.
  assert (x ∈ mjoin (map_to_list (f <$> obj)).*2) as Hin.
  { apply gathered_obj_elem. eauto. }
  rewrite Hobj in Hin. by apply elem_of_nil in Hin.
Qed.

Lemma gathered_arr_nil {X} (f : value → list X) (arr : list value) v :
  mjoin (f <$> arr) = [] → v ∈ arr → f v = [].
Proof.
  intros Harr Hv. apply elem_of_nil_inv. intros x Hx.
  assert (x ∈ mjoin (f <$> arr)) as Hin.
  { apply gathered_arr_elem. eauto. }
  rewrite Harr in Hin. by apply elem_of_nil in Hin.
Qed.

Lemma representable_obj_child (obj : gmap string value) k v :
  representable (Obj obj) = true → obj !! k = Some v → representable v = true.
Proof.
  intros [Hc Hr]%representable_true Hk. apply representable_true. split.
  - by apply (gathered_obj_nil captured obj k).
  - by apply (gathered_obj_nil rejects obj k).
Qed.

Lemma representable_arr_child (arr : list value) v :
  representable (Arr arr) = true → v ∈ arr → representable v = true.
Proof.
  intros [Hc Hr]%representable_true Hv. apply representable_true. split.
  - by apply (gathered_arr_nil captured arr).
  - by apply (gathered_arr_nil rejects arr).
Qed.

Lemma reflectValue_wrap_valid v :
  representable v = true →
  reflectValue false (wrap v) = Ok (json_Marshal (wrap v)).1 ∧
  (json_Marshal (wrap v)).2 = None.
Proof.
  intros (b & Hb)%json_Marshal_wrap_valid. rewrite Hb. simpl.
  unfold json_Marshal in Hb.
  destruct (reflectValue false (wrap v)); simplify_eq/=. done.
Qed.

Lemma json_Marshal_wrap_Obj (O : gmap string value) :
  representable (Obj O) = true →
  json_Marshal (wrap (Obj O)) =
    (object (sorted_members ((λ v, (json_Marshal (wrap v)).1) <$> O)), None).
Proof.
  intros HO. unfold json_Marshal at 1. simpl.
  assert (reflectValue false <$> (wrap <$> O) =
          Ok <$> ((λ v, (json_Marshal (wrap v)).1) <$> O)) as ->.
  { rewrite <-!map_fmap_compose. apply map_fmap_ext. intros k v Hk. simpl.
    by apply reflectValue_wrap_valid, (representable_obj_child O k). }
  by rewrite mapEncoder_Ok_fmap.
Qed.

Lemma json_Marshal_wrap_Arr (A : list value) :
  representable (Arr A) = true →
  json_Marshal (wrap (Arr A)) =
    (array ((λ v, (json_Marshal (wrap v)).1) <$> A), None).
Proof.
  intros HA. unfold json_Marshal at 1. simpl.
  assert (reflectValue false <$> (wrap <$> A) =
          Ok <$> ((λ v, (json_Marshal (wrap v)).1) <$> A)) as ->.
  { rewrite <-!list_fmap_compose. apply list_fmap_ext. intros i v Hi. simpl.
    apply reflectValue_wrap_valid, (representable_arr_child A); [done|].
    by eapply list_elem_of_lookup_2. }
  by rewrite sliceEncoder_Ok_fmap.
Qed.

(** ** applyOptionals *)

Lemma applyOptionals_foldl options fn (σ : store) :
  applyOptionals options fn σ = (fn, foldl (λ σ option, option fn σ) σ options).
Proof. revert σ. induction options as [|option options IH]; intros σ; simpl; auto. Qed.

Lemma applyOptionals_app options1 options2 fn (σ : store) :
  applyOptionals (options1 ++ options2) fn σ =
  applyOptionals options2 fn (applyOptionals options1 fn σ).2.
Proof. by rewrite !applyOptionals_foldl, foldl_app. Qed.

Lemma set_key_object k e fn (σ : store) :
  set_key k e fn σ !!! fn = <[k := e]> (σ !!! fn).
Proof. unfold set_key. by rewrite lookup_total_insert_eq. Qed.

Lemma set_key_local k e : local (set_key k e).
Proof. intros fn σ l Hl. unfold set_key. by rewrite lookup_insert_ne. Qed.

(** Modifiers that set other keys leave an entry as it is. *)
Lemma set_keys_other (kes : list (string * value)) k e fn (σ : store) :
  k ∉ kes.*1 →
  (σ !!! fn) !! k = Some e →
  ((applyOptionals (uncurry set_key <$> kes) fn σ).2 !!! fn) !! k = Some e.
Proof.
  revert σ. induction kes as [|[k' e'] kes IH]; intros σ Hk Hσ; csimpl; [done|].
  apply not_elem_of_cons in Hk as [Hk' Hk]. apply IH; [done|].
  by rewrite set_key_object, lookup_insert_ne.
Qed.

Lemma applyOptionals_last_wins options k e (kes : list (string * value)) fn (σ : store) :
  k ∉ kes.*1 →
  ((applyOptionals (options ++ set_key k e :: (uncurry set_key <$> kes)) fn σ).2
     !!! fn) !! k = Some e.
Proof.
  intros Hk. rewrite applyOptionals_app. simpl.
  apply set_keys_other; [done|]. by rewrite set_key_object, lookup_insert_eq.
Qed.

Lemma applyOptionals_local options fn (σ : store) l :
  Forall local options → l ≠ fn →
  (applyOptionals options fn σ).2 !! l = σ !! l.
Proof.
  intros Hopts Hl. revert σ.
  induction Hopts as [|option options Hopt _ IH]; intros σ; simpl; [done|].
  by rewrite IH, Hopt.
Qed.

(** ** fn1 .. fn4 *)

Lemma foldl_insert_dom (pairs : list (string * value)) (obj : gmap string value) :
  dom (foldl (λ obj kv, <[kv.1 := wrap kv.2]> obj) obj pairs) =
  dom obj ∪ list_to_set pairs.*1.
Proof.
  revert obj. induction pairs as [|[k v] pairs IH]; intros obj; csimpl.
  - set_solver.
  - rewrite IH, dom_insert_L. set_solver.
Qed.

Lemma foldl_insert_other (pairs : list (string * value)) (obj : gmap string value) k :
  k ∉ pairs.*1 →
  foldl (λ obj kv, <[kv.1 := wrap kv.2]> obj) obj pairs !! k = obj !! k.
Proof.
  revert obj. induction pairs as [|[k' v'] pairs IH]; intros obj Hk; csimpl; [done|].
  apply not_elem_of_cons in Hk as [Hk' Hk]. rewrite IH by done.
  by rewrite lookup_insert_ne.
Qed.

Lemma foldl_insert_lookup (pairs : list (string * value)) (obj : gmap string value) k v :
  NoDup pairs.*1 → (k, v) ∈ pairs →
  foldl (λ obj kv, <[kv.1 := wrap kv.2]> obj) obj pairs !! k = Some (wrap v).
Proof.
  revert obj. induction pairs as [|[k' v'] pairs IH]; intros obj Hnd Hkv; csimpl.
  - by apply elem_of_nil in Hkv.
  - apply NoDup_cons in Hnd as [Hk' Hnd].
    apply elem_of_cons in Hkv as [[= -> ->]|Hkv].
    + rewrite foldl_insert_other by done. apply lookup_insert_eq.
    + by apply IH.
Qed.

Lemma literal_obj_dom pairs : dom (literal_obj pairs) = list_to_set pairs.*1.
Proof. unfold literal_obj. rewrite foldl_insert_dom. set_solver. Qed.

Lemma literal_obj_lookup pairs k v :
  NoDup pairs.*1 → (k, v) ∈ pairs → literal_obj pairs !! k = Some (wrap v).
Proof. apply foldl_insert_lookup. Qed.

Lemma alloc_applyOptionals_frame obj options (σ : store) :
  Forall local options →
  let r := applyOptionals options (fresh (dom σ)) (<[fresh (dom σ) := obj]> σ) in
  r.1 = fresh (dom σ) ∧ (r.1 ∉ dom σ) ∧ ∀ l, l ∈ dom σ → r.2 !! l = σ !! l.
Proof.
  intros Hopts r. unfold r. rewrite applyOptionals_foldl. simpl.
  split; [done|]. split; [apply is_fresh|]. intros l Hl.
  assert (l ≠ fresh (dom σ)) as Hne.
  { intros ->. by apply is_fresh in Hl. }
  rewrite <-(lookup_insert_ne σ (fresh (dom σ)) l obj) by done.
  pose proof (applyOptionals_local options (fresh (dom σ))
                (<[fresh (dom σ) := obj]> σ) l Hopts Hne) as H.
  by rewrite applyOptionals_foldl in H.
Qed.

(** * The claims *)

(** ** C1 *)

(** C1, as stated, fails: an [Obj] (or a pre-wrapped object) that holds an
    invalid node built with the error [boom] does not serialize to the
    error [boom]; [encoding/json] returns a [MarshalerError] around it. *)
Lemma invalid_in_tree_error_is_wrapped :
  let boom := errorString "boom" in
  let obj : gmap string value := {[ "a" := invalidExpr (Some boom) ]} in
  captured (Obj obj) = [Some boom] ∧
  Obj_MarshalJSON obj = ("", Some (MarshalerError T_invalidExpr boom)) ∧
  Obj_MarshalJSON obj ≠ ("", Some boom) ∧
  json_Marshal (unescapedObj obj) ≠ ("", Some boom).
Proof. vm_compute. repeat split; congruence. Qed.

(** C1 (amended): [MarshalJSON] of an invalid node returns no bytes and
    exactly the error the node was constructed with.  [json.Marshal] of a
    tree that holds an invalid node, and of the wrapped tree (which is
    [MarshalJSON] of an [Obj] or [Arr]), fails and returns no bytes, and the
    error comes from a leaf of the tree.  When every other value of the tree
    is one the encoder accepts, the error is a [MarshalerError] for the type
    [invalidExpr], possibly inside further [MarshalerError] layers, around
    the error captured by an invalid node of the tree (around the syntax
    error of [compact] when that node captured the nil error); when the tree
    also holds a value the encoder refuses, the error may be that value's
    instead. *)
Theorem invalid_node_fails_serialization :
  (∀ inv_err, invalidExpr_MarshalJSON inv_err = ("", inv_err)) ∧
  (∀ v, contains_invalid v = true →
     let fails (r : string * option error) :=
       ∃ e, r = ("", Some e) ∧ from_leaf v e in
     fails (json_Marshal v) ∧ fails (json_Marshal (wrap v))) ∧
  (∀ v, contains_invalid v = true → rejects v = [] →
     let fails_wrapping (r : string * option error) :=
       ∃ e o, r = ("", Some e) ∧ o ∈ captured v ∧
         wraps e (MarshalerError T_invalidExpr (cause o)) in
     fails_wrapping (json_Marshal v) ∧ fails_wrapping (json_Marshal (wrap v))) ∧
  (∀ v err, contains_invalid v = true → rejects v = [] →
     Forall (λ o, o = Some err) (captured v) →
     ∃ e, json_Marshal v = ("", Some e) ∧
       wraps e (MarshalerError T_invalidExpr err)).
Proof.
  split; [done|]. split; [|split].
  - intros v Hv. split.
    + by apply json_Marshal_invalid.
    + by apply json_Marshal_wrap_invalid.
  - intros v Hv Hr. split.
    + apply json_Marshal_invalid in Hv as (e & He & Hleaf).
      destruct (from_leaf_captured v e Hr Hleaf) as (o & Ho & Hw). eauto.
    + apply json_Marshal_wrap_invalid in Hv as (e & He & Hleaf).
      destruct (from_leaf_captured v e Hr Hleaf) as (o & Ho & Hw). eauto.
  - intros v err (e & He & Hleaf)%json_Marshal_invalid Hr Hall.
    destruct (from_leaf_captured v e Hr Hleaf) as (o & Ho & Hw).
    rewrite Forall_forall in Hall. rewrite (Hall o Ho) in Hw. eauto.
Qed.

Lemma invalid_node_fails_serialization_witness :
  let boom := errorString "boom" in
  let v := Arr [Lit (int_lit 1); invalidExpr (Some boom)] in
  contains_invalid v = true ∧ rejects v = [] ∧
  Forall (λ o, o = Some boom) (captured v) ∧
  ∃ e, json_Marshal v = ("", Some e) ∧
    wraps e (MarshalerError T_invalidExpr boom).
Proof.
  intros boom v.
  assert (Forall (λ o, o = Some boom) (captured v)) as Hall.
  { repeat constructor. }
  split; [reflexivity|]. split; [reflexivity|]. split; [exact Hall|].
  exact (proj2 (proj2 (proj2 invalid_node_fails_serialization))
           v boom eq_refl eq_refl Hall).
Defined.

(** ** C2 *)

(** C2: wrapping twice is wrapping once, so both serialize to the same
    JSON; an input that is not a raw object or array is returned
    unchanged. *)
Theorem wrap_idempotent (E : value) :
  wrap (wrap E) = wrap E ∧
  json_Marshal (wrap (wrap E)) = json_Marshal (wrap E) ∧
  (raw E = false → wrap E = E).
Proof.
  split; [apply wrap_wrap|]. split; [by rewrite wrap_wrap|]. apply wrap_id.
Qed.

Lemma wrap_idempotent_witness :
  let E := unescapedObj {[ "object" := Obj {[ "a" := Lit (int_lit 1) ]} ]} in
  raw E = false ∧ wrap E = E.
Proof.
  intros E. split; [reflexivity|].
  apply (proj2 (proj2 (wrap_idempotent E))). reflexivity.
Defined.

(** ** C3 *)

(** C3: [applyOptionals] runs the modifiers from first to last on the
    object it was given; a modifier that sets a key adds the entry or
    overrides the one that is there; the value a key ends with is the one
    set by the last modifier that set it.  Two modifiers that both set
    ["ttl"] leave the second one's value, also when the node is built by
    [fn1] .. [fn4]. *)
Theorem applyOptionals_in_order_last_wins :
  (∀ options fn (σ : store),
     applyOptionals options fn σ = (fn, foldl (λ σ option, option fn σ) σ options)) ∧
  (∀ k e fn (σ : store), set_key k e fn σ !!! fn = <[k := e]> (σ !!! fn)) ∧
  (∀ options k e (kes : list (string * value)) fn (σ : store),
     k ∉ kes.*1 →
     ((applyOptionals (options ++ set_key k e :: (uncurry set_key <$> kes)) fn σ).2
        !!! fn) !! k = Some e) ∧
  (∀ e1 e2 fn (σ : store),
     ((applyOptionals [set_key "ttl" e1; set_key "ttl" e2] fn σ).2
        !!! fn) !! "ttl" = Some e2) ∧
  (∀ e1 e2 k1 v1 k2 v2 k3 v3 k4 v4 (σ : store),
     let options := [set_key "ttl" e1; set_key "ttl" e2] in
     let ttl (r : loc * store) := (r.2 !!! r.1) !! "ttl" in
     ttl (fn1 k1 v1 options σ) = Some e2 ∧
     ttl (fn2 k1 v1 k2 v2 options σ) = Some e2 ∧
     ttl (fn3 k1 v1 k2 v2 k3 v3 options σ) = Some e2 ∧
     ttl (fn4 k1 v1 k2 v2 k3 v3 k4 v4 options σ) = Some e2).
Proof.
  split; [apply applyOptionals_foldl|]. split; [apply set_key_object|].
  split; [apply applyOptionals_last_wins|].
  assert (∀ e1 e2 fn (σ : store),
    ((applyOptionals [set_key "ttl" e1; set_key "ttl" e2] fn σ).2
       !!! fn) !! "ttl" = Some e2) as Httl.
  { intros e1 e2 fn σ.
    apply (applyOptionals_last_wins [set_key "ttl" e1] "ttl" e2 []). set_solver. }
  split; [done|]. intros e1 e2 k1 v1 k2 v2 k3 v3 k4 v4 σ options ttl.
  unfold ttl, fn1, fn2, fn3, fn4, alloc.
  repeat split;
    match goal with
    | |- context [applyOptionals options ?fn ?σ'] =>
        rewrite (applyOptionals_foldl options fn σ'); simpl;
        rewrite <-(Httl e1 e2 fn σ'); by rewrite applyOptionals_foldl
    end.
Qed.

Lemma applyOptionals_in_order_last_wins_witness :
  let one := Lit (int_lit 1) in
  let two := Lit (int_lit 2) in
  let options := ([set_key "ts" one] ++ set_key "ttl" two ::
                  (uncurry set_key <$> [("ts", two); ("size", one)]))%list in
  ("ttl" ∉ [("ts", two); ("size", one)].*1) ∧
  ((applyOptionals options 1%positive ∅).2 !!! 1%positive) !! "ttl" = Some two.
Proof.
  intros one two options.
  assert ("ttl" ∉ [("ts", two); ("size", one)].*1) as Hk.
  { cbn. rewrite !not_elem_of_cons. repeat split; [done..|apply not_elem_of_nil]. }
  split; [exact Hk|].
  exact (proj1 (proj2 (proj2 applyOptionals_in_order_last_wins))
           [set_key "ts" one] "ttl" two [("ts", two); ("size", one)]
           1%positive ∅ Hk).
Defined.

(** ** C4 *)

(** C4, as stated, fails when a key is supplied twice: the object [fn2]
    builds from the pairs [("a", 1)] and [("a", 2)] has the one key ["a"],
    so it cannot map the first key to [wrap 1] and the second to [wrap 2];
    with the entries stored in the order written it holds [wrap 2]. *)
Lemma fn2_repeated_key :
  let one := Lit (int_lit 1) in
  let two := Lit (int_lit 2) in
  let r := fn2 "a" one "a" two [] ∅ in
  ¬ ((r.2 !!! r.1) !! "a" = Some (wrap one) ∧ (r.2 !!! r.1) !! "a" = Some (wrap two)) ∧
  (r.2 !!! r.1) !! "a" = Some (wrap two) ∧
  (r.2 !!! r.1) !! "a" ≠ Some (wrap one).
Proof. vm_compute. repeat split; try congruence. intros [? ?]. congruence. Qed.

(** C4 (amended): for every N in 1..4, [fnN] allocates a new pre-wrapped
    object whose key set is the set of supplied keys and which, when the
    supplied keys are pairwise distinct, maps each key [ki] to [wrap vi];
    the modifiers are then applied in order to that object. *)
Theorem fnN_object k1 v1 k2 v2 k3 v3 k4 v4 options (σ : store) :
  let fn := fresh (dom σ) in
  let built_from (pairs : list (string * value)) (r : loc * store) :=
    ∃ obj : gmap string value,
      r = applyOptionals options fn (<[fn := obj]> σ) ∧
      dom obj = list_to_set pairs.*1 ∧
      (NoDup pairs.*1 → ∀ k v, (k, v) ∈ pairs → obj !! k = Some (wrap v)) in
  (fn ∉ dom σ) ∧
  built_from [(k1, v1)] (fn1 k1 v1 options σ) ∧
  built_from [(k1, v1); (k2, v2)] (fn2 k1 v1 k2 v2 options σ) ∧
  built_from [(k1, v1); (k2, v2); (k3, v3)] (fn3 k1 v1 k2 v2 k3 v3 options σ) ∧
  built_from [(k1, v1); (k2, v2); (k3, v3); (k4, v4)]
    (fn4 k1 v1 k2 v2 k3 v3 k4 v4 options σ).
Proof.
  intros fn built_from. split; [apply is_fresh|].
  repeat split;
    match goal with
    | |- built_from ?pairs _ =>
        exists (literal_obj pairs);
        split; [done|split; [apply literal_obj_dom|
          intros Hnd k v Hkv; by apply literal_obj_lookup]]
    end.
Qed.

Lemma fnN_object_witness :
  let one := Lit (int_lit 1) in
  let arr := Arr [one] in
  ∃ obj : gmap string value,
    fn2 "paginate" one "size" arr [] ∅ =
      applyOptionals [] (fresh (dom (∅ : store))) (<[fresh (dom (∅ : store)) := obj]> ∅) ∧
    dom obj = list_to_set [("paginate", one); ("size", arr)].*1 ∧
    obj !! "paginate" = Some (wrap one) ∧
    obj !! "size" = Some (wrap arr).
Proof.
  intros one arr.
  destruct (proj1 (proj2 (proj2 (fnN_object "paginate" one "size" arr
              "" one "" one [] ∅)))) as (obj & Hr & Hdom & Hobj).
  assert (NoDup [("paginate", one); ("size", arr)].*1) as Hnd.
  { cbn. apply NoDup_cons. split.
    - rewrite not_elem_of_cons. split; [done|apply not_elem_of_nil].
    - apply NoDup_singleton. }
  exists obj. split; [exact Hr|]. split; [exact Hdom|]. split.
  - apply (Hobj Hnd). cbn. left.
  - apply (Hobj Hnd). cbn. right. left.
Defined.

(** ** C5 *)

(** C5: [fn1("query", 1)] serializes to [{"query":1}]. *)
Theorem fn1_query_1 (σ : store) :
  let r := fn1 "query" (Lit (int_lit 1)) [] σ in
  json_Marshal (deref r.2 r.1) =
    ("{" +:+ dquote +:+ "query" +:+ dquote +:+ ":1}", None) ∧
  unescapedObj_String (r.2 !!! r.1) =
    "{" +:+ dquote +:+ "query" +:+ dquote +:+ ":1}".
Proof.
  simpl. unfold deref, unescapedObj_String. simpl.
  rewrite lookup_total_insert_eq. by vm_compute.
Qed.

(** ** C6 *)

(** C6: for a raw object [O] that holds only JSON-representable values,
    [wrap O] serializes
    to a JSON object whose members are the keys of [O], in sorted order,
    each with the serialization of its wrapped value; the nested object
    [{"data": {"name": "John"}}] gives [{"data":{"name":"John"}}]. *)
Theorem wrap_Obj_serializes :
  (∀ O : gmap string value,
     representable (Obj O) = true →
     let members := (λ v, (json_Marshal (wrap v)).1) <$> O in
     json_Marshal (wrap (Obj O)) = (object (sorted_members members), None) ∧
     dom members = dom O ∧
     (sorted_members members).*1 = sorted_keys O ∧
     sorted_keys O ≡ₚ elements (dom O) ∧
     (∀ k v, O !! k = Some v →
        members !! k = Some (json_Marshal (wrap v)).1 ∧
        (json_Marshal (wrap v)).2 = None)) ∧
  json_Marshal (wrap (Obj {[ "data" := Obj {[ "name" := Lit (string_lit "John") ]} ]})) =
    ("{" +:+ dquote +:+ "data" +:+ dquote +:+ ":{" +:+ dquote +:+ "name" +:+ dquote
       +:+ ":" +:+ dquote +:+ "John" +:+ dquote +:+ "}}", None).
Proof.
  split; [|by vm_compute]. intros O HO members.
  split; [by apply json_Marshal_wrap_Obj|].
  split; [apply dom_fmap_L|].
  split. { rewrite sorted_members_keys. unfold sorted_keys, members. by rewrite dom_fmap_L. }
  split; [apply merge_sort_Permutation|].
  intros k v Hk. unfold members. rewrite lookup_fmap, Hk. split; [done|].
  by apply reflectValue_wrap_valid, (representable_obj_child O k).
Qed.

Lemma wrap_Obj_serializes_witness :
  let O : gmap string value :=
    {[ "b" := Arr [Lit (bool_lit true)]; "a" := Lit nil_lit ]} in
  representable (Obj O) = true ∧
  json_Marshal (wrap (Obj O)) =
    (object (sorted_members ((λ v, (json_Marshal (wrap v)).1) <$> O)), None).
Proof.
  intros O. split; [reflexivity|].
  apply (proj1 wrap_Obj_serializes O). reflexivity.
Defined.

(** ** C7 *)

(** C7, as stated, fails for an array that holds an invalid node:
    serializing the wrapped array gives an error and no JSON array. *)
Lemma wrap_Arr_invalid_element :
  let boom := errorString "boom" in
  let A := [Lit (int_lit 1); invalidExpr (Some boom)] in
  json_Marshal (wrap (Arr A)) = ("", Some (MarshalerError T_invalidExpr boom)) ∧
  ∀ elems, json_Marshal (wrap (Arr A)) ≠ (array elems, None).
Proof. split; [by vm_compute|]. intros elems. vm_compute. congruence. Qed.

(** C7 (amended): for a raw array [A] that holds only JSON-representable
    values (no invalid node and no value the encoder refuses), [wrap A]
    serializes to a JSON array of the length of [A] whose elements are, in
    order, the serializations of the wrapped elements of [A]. *)
Theorem wrap_Arr_serializes (A : list value) :
  representable (Arr A) = true →
  let elems := (λ v, (json_Marshal (wrap v)).1) <$> A in
  json_Marshal (wrap (Arr A)) = (array elems, None) ∧
  length elems = length A ∧
  (∀ i v, A !! i = Some v →
     elems !! i = Some (json_Marshal (wrap v)).1 ∧
     (json_Marshal (wrap v)).2 = None).
Proof.
  intros HA elems. split; [by apply json_Marshal_wrap_Arr|].
  split; [apply length_fmap|].
  intros i v Hi. unfold elems. rewrite list_lookup_fmap, Hi. split; [done|].
  apply reflectValue_wrap_valid, (representable_arr_child A); [done|].
  by eapply list_elem_of_lookup_2.
Qed.

Lemma wrap_Arr_serializes_witness :
  let A := [Lit (int_lit 1); Arr [Lit (string_lit "a")]; Obj ∅] in
  representable (Arr A) = true ∧
  json_Marshal (wrap (Arr A)) =
    (array ((λ v, (json_Marshal (wrap v)).1) <$> A), None).
Proof.
  intros A. split; [reflexivity|].
  apply (wrap_Arr_serializes A). reflexivity.
Defined.

(** ** C8 *)

(** C8, as stated, fails for [applyOptionals]: it returns the object it
    was given, not a new one, and that object has been written to in
    place; its serialization before and after the call differs. *)
Lemma applyOptionals_writes_in_place :
  let fn : loc := 1%positive in
  let σ : store := {[ fn := ∅ ]} in
  let r := applyOptionals [set_key "ttl" (Lit (int_lit 1))] fn σ in
  r.1 = fn ∧ fn ∈ dom σ ∧
  r.2 !! fn ≠ σ !! fn ∧
  json_Marshal (deref σ fn) = ("{}", None) ∧
  json_Marshal (deref r.2 fn) = ("{" +:+ dquote +:+ "ttl" +:+ dquote +:+ ":1}", None).
Proof.
  intros fn σ r. split; [done|]. split; [by apply elem_of_dom|].
  split; [vm_compute; congruence|]. by vm_compute.
Qed.

(** C8 (amended): [fn1] .. [fn4] return a newly allocated object and, when
    every modifier writes only to the object it is handed, leave each
    object that existed before the call as it was.  [applyOptionals]
    builds no node: it runs the modifiers on the object it was given, in
    place, and returns that same object; under the same condition the other
    objects are left as they were.  [String] on an object reads it and
    leaves the store as it was. *)
Theorem building_leaves_existing_objects :
  (∀ options fn (σ : store),
     Forall local options →
     (applyOptionals options fn σ).1 = fn ∧
     ∀ l, l ≠ fn → (applyOptionals options fn σ).2 !! l = σ !! l) ∧
  (∀ k1 v1 k2 v2 k3 v3 k4 v4 options (σ : store),
     Forall local options →
     let fresh_and_frame (r : loc * store) :=
       (r.1 ∉ dom σ) ∧ ∀ l, l ∈ dom σ → r.2 !! l = σ !! l in
     fresh_and_frame (fn1 k1 v1 options σ) ∧
     fresh_and_frame (fn2 k1 v1 k2 v2 options σ) ∧
     fresh_and_frame (fn3 k1 v1 k2 v2 k3 v3 options σ) ∧
     fresh_and_frame (fn4 k1 v1 k2 v2 k3 v3 k4 v4 options σ)) ∧
  (∀ k e, local (set_key k e)) ∧
  (∀ fn (σ : store), (String_ref fn σ).2 = σ).
Proof.
  split.
  { intros options fn σ Hopts. split; [by rewrite applyOptionals_foldl|].
    intros l Hl. by apply applyOptionals_local. }
  split; [|split; [apply set_key_local|done]].
  intros k1 v1 k2 v2 k3 v3 k4 v4 options σ Hopts fresh_and_frame.
  unfold fresh_and_frame, fn1, fn2, fn3, fn4, alloc.
  repeat split;
    match goal with
    | |- context [<[fresh (dom σ) := ?obj]> σ] =>
        apply (alloc_applyOptionals_frame obj options σ Hopts)
    end.
Qed.

Lemma building_leaves_existing_objects_witness :
  let one := Lit (int_lit 1) in
  let options := [set_key "ttl" one; set_key "ts" one] in
  let σ : store := {[ 1%positive := {[ "old" := one ]} ]} in
  Forall local options ∧
  (fn1 "get" one options σ).2 !! 1%positive = σ !! 1%positive.
Proof.
  intros one options σ.
  assert (Forall local options) as Hopts.
  { repeat constructor; apply set_key_local. }
  split; [exact Hopts|].
  apply (proj2 (proj1 (proj1 (proj2 building_leaves_existing_objects)
                        "get" one "" one "" one "" one options σ Hopts))).
  apply elem_of_dom. eexists. apply lookup_singleton_eq.
Defined.

(** ** C9 *)

(** C9: each [String] method returns the bytes and drops the error: the
    empty string for an invalid node, and for an [Obj], [Arr],
    [unescapedObj] or [unescapedArr] whose marshaling fails, as it does when
    the value holds an invalid node. *)
Theorem String_discards_error :
  (∀ inv_err, invalidExpr_String inv_err = "") ∧
  (∀ obj, (Obj_MarshalJSON obj).2 ≠ None → Obj_String obj = "") ∧
  (∀ arr, (Arr_MarshalJSON arr).2 ≠ None → Arr_String arr = "") ∧
  (∀ obj, (json_Marshal (unescapedObj obj)).2 ≠ None → unescapedObj_String obj = "") ∧
  (∀ arr, (json_Marshal (unescapedArr arr)).2 ≠ None → unescapedArr_String arr = "") ∧
  (∀ obj, contains_invalid (Obj obj) = true →
     (Obj_MarshalJSON obj).2 ≠ None ∧ Obj_String obj = "") ∧
  (∀ arr, contains_invalid (Arr arr) = true →
     (Arr_MarshalJSON arr).2 ≠ None ∧ Arr_String arr = "") ∧
  (∀ obj, contains_invalid (unescapedObj obj) = true →
     (json_Marshal (unescapedObj obj)).2 ≠ None ∧ unescapedObj_String obj = "") ∧
  (∀ arr, contains_invalid (unescapedArr arr) = true →
     (json_Marshal (unescapedArr arr)).2 ≠ None ∧ unescapedArr_String arr = "").
Proof.
  assert (∀ v, (json_Marshal v).2 ≠ None →
            (let '(byte, _) := json_Marshal v in byte) = "") as Hdrop.
  { intros v Hv. apply json_Marshal_error_no_bytes in Hv.
    by destruct (json_Marshal v). }
  split; [done|].
  split; [intros obj; apply Hdrop|]. split; [intros arr; apply Hdrop|].
  split; [intros obj; apply Hdrop|]. split; [intros arr; apply Hdrop|].
  split; [|split; [|split]].
  - intros obj (e & He & _)%json_Marshal_wrap_invalid.
    unfold Obj_String, Obj_MarshalJSON. by rewrite He.
  - intros arr (e & He & _)%json_Marshal_wrap_invalid.
    unfold Arr_String, Arr_MarshalJSON. by rewrite He.
  - intros obj (e & He & _)%json_Marshal_invalid.
    unfold unescapedObj_String. by rewrite He.
  - intros arr (e & He & _)%json_Marshal_invalid.
    unfold unescapedArr_String. by rewrite He.
Qed.

Lemma String_discards_error_witness :
  let boom := errorString "boom" in
  let obj : gmap string value := {[ "ts" := invalidExpr (Some boom) ]} in
  contains_invalid (Obj obj) = true ∧
  (Obj_MarshalJSON obj).2 ≠ None ∧ Obj_String obj = "".
Proof.
  intros boom obj. split; [reflexivity|].
  apply (proj1 (proj2 (proj2 (proj2 (proj2 (proj2 String_discards_error))))) obj).
  reflexivity.
Defined.

(** ** C10 *)

(** C10: with no modifiers [applyOptionals] returns the object it was
    given, and the object (like every other one) is as it was. *)
Theorem applyOptionals_nil fn (σ : store) :
  applyOptionals [] fn σ = (fn, σ) ∧
  deref (applyOptionals [] fn σ).2 (applyOptionals [] fn σ).1 = deref σ fn.
Proof. done. Qed.

(** * Further properties of expr.go *)

(** ** Raw and wrapped values serialize alike *)

Lemma captured_wrap v : captured (wrap v) = captured v.
Proof.
  induction v as [l|obj IH|arr IH|obj _|arr _|err] using value_ind'; try done.
  - simpl. rewrite <-map_fmap_compose. do 3 f_equal.
    apply map_fmap_ext. intros k v Hk. exact (IH k v Hk).
  - simpl. rewrite <-list_fmap_compose. f_equal.
    apply Forall_fmap_ext_1. done.
Qed.

Lemma contains_invalid_wrap v : contains_invalid (wrap v) = contains_invalid v.
Proof. unfold contains_invalid. by rewrite captured_wrap. Qed.

Lemma rejects_wrap v : rejects (wrap v) = rejects v.
Proof.
  induction v as [l|obj IH|arr IH|obj _|arr _|err] using value_ind'; try done.
  - simpl. rewrite <-map_fmap_compose. do 3 f_equal.
    apply map_fmap_ext. intros k v Hk. exact (IH k v Hk).
  - simpl. rewrite <-list_fmap_compose. f_equal.
    apply Forall_fmap_ext_1. done.
Qed.

Lemma from_leaf_wrap v e : from_leaf (wrap v) e ↔ from_leaf v e.
Proof. unfold from_leaf. by rewrite captured_wrap, rejects_wrap. Qed.

Lemma marshalerEncoder_returned_map t (m : gmap string (res string)) :
  returned (marshalerEncoder t (returned (mapEncoder m))) =
  match returned (mapEncoder m) with
  | (b, None) => (b, None)
  | (_, Some e) => ("", Some (MarshalerError t e))
  end.
Proof.
  destruct (mapEncoder m) as [b|e] eqn:Hm; simpl; [|done].
  apply mapEncoder_Ok_inv in Hm as (bs & _ & ->). done.
Qed.

Lemma marshalerEncoder_returned_slice t (l : list (res string)) :
  returned (marshalerEncoder t (returned (sliceEncoder l))) =
  match returned (sliceEncoder l) with
  | (b, None) => (b, None)
  | (_, Some e) => ("", Some (MarshalerError t e))
  end.
Proof.
  destruct (sliceEncoder l) as [b|e] eqn:Hl; simpl; [|done].
  apply sliceEncoder_Ok_inv in Hl as (bs & _ & ->). done.
Qed.

Lemma json_Marshal_Obj obj :
  json_Marshal (Obj obj) =
  match Obj_MarshalJSON obj with
  | (b, None) => (b, None)
  | (_, Some e) => ("", Some (MarshalerError T_Obj e))
  end.
Proof.
  unfold Obj_MarshalJSON, json_Marshal.
  rewrite <-reflectValue_wrap. simpl. apply marshalerEncoder_returned_map.
Qed.

Lemma json_Marshal_Arr arr :
  json_Marshal (Arr arr) =
  match Arr_MarshalJSON arr with
  | (b, None) => (b, None)
  | (_, Some e) => ("", Some (MarshalerError T_Arr e))
  end.
Proof.
  unfold Arr_MarshalJSON, json_Marshal.
  rewrite <-reflectValue_wrap. simpl. apply marshalerEncoder_returned_slice.
Qed.

Lemma json_Marshal_wrap_same v :
  representable v = true → json_Marshal v = json_Marshal (wrap v).
Proof.
  intros Hv. destruct (json_Marshal_wrap_valid v Hv) as [b Hb].
  destruct v as [l|obj|arr|obj|arr|err]; try done.
  - rewrite json_Marshal_Obj. unfold Obj_MarshalJSON. by rewrite Hb.
  - rewrite json_Marshal_Arr. unfold Arr_MarshalJSON. by rewrite Hb.
Qed.

Lemma json_Marshal_wrap_bytes v :
  (json_Marshal v).1 = (json_Marshal (wrap v)).1 ∧
  ((json_Marshal v).2 = None ↔ (json_Marshal (wrap v)).2 = None).
Proof.
  destruct v as [l|obj|arr|obj|arr|err]; try done.
  - rewrite json_Marshal_Obj. unfold Obj_MarshalJSON.
    pose proof (json_Marshal_error_no_bytes (wrap (Obj obj))) as Hb.
    destruct (json_Marshal (wrap (Obj obj))) as [b [e|]]; simpl in *; [|done].
    split; [by rewrite Hb|done].
  - rewrite json_Marshal_Arr. unfold Arr_MarshalJSON.
    pose proof (json_Marshal_error_no_bytes (wrap (Arr arr))) as Hb.
    destruct (json_Marshal (wrap (Arr arr))) as [b [e|]]; simpl in *; [|done].
    split; [by rewrite Hb|done].
Qed.

(** X1: [json.Marshal] of a raw [Obj] or [Arr], wherever it sits in a tree,
    gives the bytes its [MarshalJSON] method returns, and when the method
    fails gives its error inside one more [MarshalerError] for the type
    [Obj] or [Arr].  So for every value [wrap] changes neither the bytes
    nor whether serialization succeeds (only the layers around an error),
    and a value that holds only JSON-representable values serializes to
    the same result before and after [wrap]. *)
Theorem Marshal_raw_as_wrapped :
  (∀ obj, json_Marshal (Obj obj) =
     match Obj_MarshalJSON obj with
     | (b, None) => (b, None)
     | (_, Some e) => ("", Some (MarshalerError T_Obj e))
     end) ∧
  (∀ arr, json_Marshal (Arr arr) =
     match Arr_MarshalJSON arr with
     | (b, None) => (b, None)
     | (_, Some e) => ("", Some (MarshalerError T_Arr e))
     end) ∧
  (∀ v, (json_Marshal v).1 = (json_Marshal (wrap v)).1 ∧
        ((json_Marshal v).2 = None ↔ (json_Marshal (wrap v)).2 = None)) ∧
  (∀ v, representable v = true → json_Marshal v = json_Marshal (wrap v)).
Proof.
  split; [apply json_Marshal_Obj|]. split; [apply json_Marshal_Arr|].
  split; [apply json_Marshal_wrap_bytes|apply json_Marshal_wrap_same].
Qed.

Lemma Marshal_raw_as_wrapped_witness :
  let v := Arr [Obj {[ "a" := Lit (int_lit 1) ]}; Lit (string_lit "b")] in
  representable v = true ∧ json_Marshal v = json_Marshal (wrap v).
Proof.
  intros v. split; [reflexivity|].
  apply (proj2 (proj2 (proj2 Marshal_raw_as_wrapped)) v). reflexivity.
Defined.

(** ** Bytes or error, never both, never neither *)

Lemma json_Marshal_bytes_or_error v :
  raw v = true ∨ (∃ obj, v = unescapedObj obj) ∨ (∃ arr, v = unescapedArr arr) →
  ((json_Marshal (wrap v)).2 = None ↔ representable v = true) ∧
  ((json_Marshal (wrap v)).1 = "" ↔ (json_Marshal (wrap v)).2 ≠ None).
Proof.
  intros Hshape. split.
  - split.
    + intros Hok. pose proof (json_Marshal_wrap_outcome v) as H.
      destruct (json_Marshal (wrap v)) as [b [e|]]; simplify_eq/=.
      by apply representable_true.
    + intros (b & ->)%json_Marshal_wrap_valid. done.
  - split; [|apply json_Marshal_error_no_bytes].
    unfold json_Marshal.
    assert (∀ b, reflectValue false (wrap v) = Ok b → b ≠ "") as Hne.
    { intros b. destruct Hshape as [Hraw|[[obj ->]|[arr ->]]].
      - destruct v as [l|obj|arr|obj|arr|err]; try done; simpl.
        + intros (bs & _ & ->)%mapEncoder_Ok_inv. done.
        + intros (bs & _ & ->)%sliceEncoder_Ok_inv. done.
      - simpl. intros (bs & _ & ->)%mapEncoder_Ok_inv. done.
      - simpl. intros (bs & _ & ->)%sliceEncoder_Ok_inv. done. }
    destruct (reflectValue false (wrap v)) as [b|e]; simpl; [|done].
    intros ->. by destruct (Hne "").
Qed.

(** X2: [MarshalJSON] of an [Obj] or [Arr] returns either bytes and the nil
    error or no bytes and an error, never both and never neither (unlike
    [MarshalJSON] of an invalid node built with the nil error, which returns
    neither); the error is nil exactly when the value holds only
    JSON-representable values: no invalid node and no value the encoder
    refuses. *)
Theorem MarshalJSON_bytes_xor_error :
  (∀ obj,
     ((Obj_MarshalJSON obj).2 = None ↔ representable (Obj obj) = true) ∧
     ((Obj_MarshalJSON obj).1 = "" ↔ (Obj_MarshalJSON obj).2 ≠ None)) ∧
  (∀ arr,
     ((Arr_MarshalJSON arr).2 = None ↔ representable (Arr arr) = true) ∧
     ((Arr_MarshalJSON arr).1 = "" ↔ (Arr_MarshalJSON arr).2 ≠ None)) ∧
  invalidExpr_MarshalJSON None = ("", None).
Proof.
  split; [|split; [|done]].
  - intros obj. apply (json_Marshal_bytes_or_error (Obj obj)). by left.
  - intros arr. apply (json_Marshal_bytes_or_error (Arr arr)). by left.
Qed.

Lemma MarshalJSON_bytes_xor_error_witness :
  let obj : gmap string value := {[ "a" := Lit NaN_lit ]} in
  (Obj_MarshalJSON obj).2 ≠ None ∧ (Obj_MarshalJSON obj).1 = "".
Proof.
  intros obj.
  assert ((Obj_MarshalJSON obj).2 ≠ None) as Herr by (vm_compute; congruence).
  split; [exact Herr|].
  exact (proj2 (proj2 (proj1 MarshalJSON_bytes_xor_error obj)) Herr).
Defined.

(** X3: for the four container types [String] returns the empty string
    exactly when the value holds an invalid node or a value the encoder
    refuses; otherwise it returns the bytes [json.Marshal] gives for the
    value. *)
Theorem String_empty_iff_invalid :
  (∀ obj, (Obj_String obj = "" ↔ representable (Obj obj) = false) ∧
          (representable (Obj obj) = true →
           json_Marshal (Obj obj) = (Obj_String obj, None))) ∧
  (∀ arr, (Arr_String arr = "" ↔ representable (Arr arr) = false) ∧
          (representable (Arr arr) = true →
           json_Marshal (Arr arr) = (Arr_String arr, None))) ∧
  (∀ obj, (unescapedObj_String obj = "" ↔
           representable (unescapedObj obj) = false) ∧
          (representable (unescapedObj obj) = true →
           json_Marshal (unescapedObj obj) = (unescapedObj_String obj, None))) ∧
  (∀ arr, (unescapedArr_String arr = "" ↔
           representable (unescapedArr arr) = false) ∧
          (representable (unescapedArr arr) = true →
           json_Marshal (unescapedArr arr) = (unescapedArr_String arr, None))).
Proof.
  assert (∀ v,
    raw v = true ∨ (∃ obj, v = unescapedObj obj) ∨ (∃ arr, v = unescapedArr arr) →
    ((let '(byte, _) := json_Marshal (wrap v) in byte) = "" ↔
       representable v = false) ∧
    (representable v = true →
     json_Marshal v = (let '(byte, _) := json_Marshal (wrap v) in byte, None)))
    as Hgen.
  { intros v Hshape.
    destruct (json_Marshal_bytes_or_error v Hshape) as [Herr Hbytes].
    split.
    - assert ((let '(byte, _) := json_Marshal (wrap v) in byte) =
              (json_Marshal (wrap v)).1) as -> by by destruct (json_Marshal (wrap v)).
      rewrite Hbytes, Herr. by destruct (representable v).
    - intros Hv. rewrite (json_Marshal_wrap_same v Hv).
      destruct (json_Marshal_wrap_valid v Hv) as [b ->]. done. }
  split; [intros obj; exact (Hgen (Obj obj) (or_introl eq_refl))|].
  split; [intros arr; exact (Hgen (Arr arr) (or_introl eq_refl))|].
  split.
  - intros obj. apply (Hgen (unescapedObj obj)). right. left. eauto.
  - intros arr. apply (Hgen (unescapedArr arr)). right. right. eauto.
Qed.

Lemma String_empty_iff_invalid_witness :
  let obj : gmap string value := {[ "ts" := Arr [Lit (int_lit 3)] ]} in
  representable (Obj obj) = true ∧
  json_Marshal (Obj obj) = (Obj_String obj, None).
Proof.
  intros obj. split; [reflexivity|].
  apply (proj2 (proj1 String_empty_iff_invalid obj)). reflexivity.
Defined.

(** ** Serializing the nodes fn1 .. fn4 build *)

Lemma deref_insert (σ : store) fn obj : deref (<[fn := obj]> σ) fn = unescapedObj obj.
Proof. unfold deref. by rewrite lookup_total_insert_eq. Qed.

Lemma foldl_insert_children (pairs : list (string * value)) (obj : gmap string value) k x :
  foldl (λ obj kv, <[kv.1 := wrap kv.2]> obj) obj pairs !! k = Some x →
  (∃ v, (k, v) ∈ pairs ∧ x = wrap v) ∨ obj !! k = Some x.
Proof.
  revert obj. induction pairs as [|[k' v'] pairs IH]; intros obj; csimpl; [eauto|].
  intros [(v & Hv & ->)|Hk]%IH.
  - left. exists v. split; [by right|done].
  - destruct (decide (k' = k)) as [->|Hne].
    + rewrite lookup_insert_eq in Hk. simplify_eq. left. exists v'. split; [left|done].
    + rewrite lookup_insert_ne in Hk by done. by right.
Qed.

Lemma literal_obj_children pairs k x :
  literal_obj pairs !! k = Some x → ∃ v, (k, v) ∈ pairs ∧ x = wrap v.
Proof.
  intros [H|H]%foldl_insert_children; [done|]. by rewrite lookup_empty in H.
Qed.

Lemma mapEncoder_children_Ok (f : value → res string) (g : value → string)
    (m : gmap string value) :
  (∀ k x, m !! k = Some x → f x = Ok (g x)) →
  mapEncoder (f <$> m) = Ok (object (sorted_members (g <$> m))).
Proof.
  intros Hm. rewrite <-mapEncoder_Ok_fmap. f_equal.
  rewrite <-map_fmap_compose. apply map_fmap_ext. intros k x Hk. exact (Hm k x Hk).
Qed.

Lemma sorted_members_singleton {A} k (x : A) :
  sorted_members ({[ k := x ]} : gmap string A) = [(k, x)].
Proof.
  unfold sorted_members, sorted_keys. rewrite dom_singleton_L, elements_singleton.
  simpl. by rewrite lookup_singleton_eq.
Qed.

Lemma json_Marshal_singleton k x :
  json_Marshal (unescapedObj {[ k := x ]}) =
  match json_Marshal x with
  | (b, None) => (object [(k, b)], None)
  | (_, Some e) => ("", Some e)
  end.
Proof.
  unfold json_Marshal. simpl. rewrite map_fmap_singleton.
  unfold mapEncoder. rewrite sorted_members_singleton. simpl.
  by destruct (reflectValue false x).
Qed.

Lemma literal_obj_serializes pairs :
  Forall (λ kv, representable kv.2 = true) pairs →
  json_Marshal (unescapedObj (literal_obj pairs)) =
    (object (sorted_members ((λ x, (json_Marshal x).1) <$> literal_obj pairs)), None).
Proof.
  intros Hvalid. rewrite Forall_forall in Hvalid.
  unfold json_Marshal at 1. simpl.
  rewrite (mapEncoder_children_Ok _ (λ x, (json_Marshal x).1)); [done|].
  intros k x (v & Hv & ->)%literal_obj_children.
  apply reflectValue_wrap_valid, (Hvalid (k, v) Hv).
Qed.

Lemma sorted_keys_sorted {A} (m : gmap string A) :
  StronglySorted String.le (sorted_keys m).
Proof. apply StronglySorted_merge_sort; apply _. Qed.

Lemma sorted_keys_list_to_set {A} (m : gmap string A) (ks : list string) :
  NoDup ks → dom m = list_to_set ks → sorted_keys m ≡ₚ ks.
Proof.
  intros Hnd Hdom. unfold sorted_keys.
  by rewrite merge_sort_Permutation, Hdom, elements_list_to_set.
Qed.

Lemma from_leaf_obj (obj : gmap string value) e :
  from_leaf (unescapedObj obj) e → ∃ k x, obj !! k = Some x ∧ from_leaf x e.
Proof.
  intros [(o & Ho & Hw)|(e0 & He0 & Hw)]; simpl in *.
  - apply gathered_obj_elem in Ho as (k & x & Hk & Ho).
    exists k, x. split; [done|]. left. eauto.
  - apply gathered_obj_elem in He0 as (k & x & Hk & He0).
    exists k, x. split; [done|]. right. eauto.
Qed.

Lemma literal_obj_fails pairs k v :
  NoDup pairs.*1 → (k, v) ∈ pairs → contains_invalid v = true →
  ∃ e, json_Marshal (unescapedObj (literal_obj pairs)) = ("", Some e) ∧
    ∃ k' v', (k', v') ∈ pairs ∧ from_leaf v' e.
Proof.
  intros Hnd Hkv Hv.
  assert (contains_invalid (unescapedObj (literal_obj pairs)) = true) as Hobj.
  { apply contains_invalid_true in Hv. apply contains_invalid_true.
    destruct (captured v) as [|o cs] eqn:Hcs; [done|].
    apply (elem_of_not_nil o). simpl. apply captured_obj_elem.
    exists k, (wrap v). split; [by apply literal_obj_lookup|].
    rewrite captured_wrap, Hcs. left. }
  apply json_Marshal_invalid in Hobj as (e & He & Hleaf).
  exists e. split; [done|].
  apply from_leaf_obj in Hleaf as (k' & x & Hx & Hleaf).
  apply literal_obj_children in Hx as (v' & Hv' & ->).
  exists k', v'. split; [done|]. by apply from_leaf_wrap.
Qed.

(** X4: the node [fnN] builds without modifiers from pairwise distinct keys
    and JSON-representable values (no invalid node, no value the encoder
    refuses) serializes to a JSON object whose members are the supplied
    keys, each once and in ascending bytewise order, each with the
    serialization of its wrapped value; for [fn1] and any value the result
    is the one-member object, or the error of serializing the wrapped value,
    passed on as it is. *)
Theorem fnN_serializes k1 v1 k2 v2 k3 v3 k4 v4 (σ : store) :
  let bytes (v : value) := (json_Marshal (wrap v)).1 in
  let serializes (pairs : list (string * value)) (r : loc * store) :=
    NoDup pairs.*1 →
    Forall (λ kv, representable kv.2 = true) pairs →
    ∃ members : list (string * string),
      json_Marshal (deref r.2 r.1) = (object members, None) ∧
      members.*1 ≡ₚ pairs.*1 ∧
      StronglySorted String.le members.*1 ∧
      (∀ k v, (k, v) ∈ pairs → (k, bytes v) ∈ members) in
  serializes [(k1, v1)] (fn1 k1 v1 [] σ) ∧
  serializes [(k1, v1); (k2, v2)] (fn2 k1 v1 k2 v2 [] σ) ∧
  serializes [(k1, v1); (k2, v2); (k3, v3)] (fn3 k1 v1 k2 v2 k3 v3 [] σ) ∧
  serializes [(k1, v1); (k2, v2); (k3, v3); (k4, v4)]
    (fn4 k1 v1 k2 v2 k3 v3 k4 v4 [] σ) ∧
  json_Marshal (deref (fn1 k1 v1 [] σ).2 (fn1 k1 v1 [] σ).1) =
    match json_Marshal (wrap v1) with
    | (b, None) => (object [(k1, b)], None)
    | (_, Some e) => ("", Some e)
    end.
Proof.
  intros bytes serializes.
  assert (∀ pairs, serializes pairs
            (fresh (dom σ), <[fresh (dom σ) := literal_obj pairs]> σ)) as Hgen.
  { intros pairs Hnd Hvalid.
    set (bs := (λ x, (json_Marshal x).1) <$> literal_obj pairs).
    assert (dom bs = list_to_set pairs.*1) as Hdom.
    { unfold bs. by rewrite dom_fmap_L, literal_obj_dom. }
    exists (sorted_members bs). split; [|split; [|split]].
    - simpl. rewrite deref_insert. by apply literal_obj_serializes.
    - rewrite sorted_members_keys. by apply sorted_keys_list_to_set.
    - rewrite sorted_members_keys. apply sorted_keys_sorted.
    - intros k v Hkv. apply sorted_members_elem. unfold bs.
      by rewrite lookup_fmap, (literal_obj_lookup pairs k v). }
  split; [apply (Hgen [(k1, v1)])|].
  split; [apply (Hgen [(k1, v1); (k2, v2)])|].
  split; [apply (Hgen [(k1, v1); (k2, v2); (k3, v3)])|].
  split; [apply (Hgen [(k1, v1); (k2, v2); (k3, v3); (k4, v4)])|].
  simpl. rewrite deref_insert, insert_empty. apply json_Marshal_singleton.
Qed.

Lemma fnN_serializes_witness :
  let one := Lit (int_lit 1) in
  let arr := Arr [one] in
  let r := fn2 "paginate" one "size" arr [] ∅ in
  ∃ members : list (string * string),
    json_Marshal (deref r.2 r.1) = (object members, None) ∧
    members.*1 ≡ₚ [("paginate", one); ("size", arr)].*1 ∧
    StronglySorted String.le members.*1.
Proof.
  intros one arr r.
  assert (NoDup [("paginate", one); ("size", arr)].*1) as Hnd.
  { cbn. apply NoDup_cons. split.
    - rewrite not_elem_of_cons. split; [done|apply not_elem_of_nil].
    - apply NoDup_singleton. }
  assert (Forall (λ kv : string * value, representable kv.2 = true)
            [("paginate", one); ("size", arr)]) as Hvalid.
  { repeat constructor. }
  destruct (proj1 (proj2 (fnN_serializes "paginate" one "size" arr "" one "" one ∅))
              Hnd Hvalid) as (members & Hjson & Hperm & Hsorted & _).
  exists members. split; [exact Hjson|]. split; [exact Hperm|exact Hsorted].
Defined.

(** X5: [fnN] accepts a value that holds an invalid node and returns a node
    all the same; the failure shows when that node is serialized, with no
    bytes and an error that comes from a leaf of one of the supplied values.
    When no supplied value holds a value the encoder refuses, the error is
    around the one captured by an invalid node of a supplied value. *)
Theorem fnN_defers_invalid k1 v1 k2 v2 k3 v3 k4 v4 (σ : store) :
  let fails (pairs : list (string * value)) (r : loc * store) :=
    NoDup pairs.*1 →
    ∀ k v, (k, v) ∈ pairs → contains_invalid v = true →
    ∃ e, json_Marshal (deref r.2 r.1) = ("", Some e) ∧
      (∃ k' v', (k', v') ∈ pairs ∧ from_leaf v' e) ∧
      (Forall (λ kv, rejects kv.2 = []) pairs →
       ∃ k' v' o, (k', v') ∈ pairs ∧ o ∈ captured v' ∧
         wraps e (MarshalerError T_invalidExpr (cause o))) in
  fails [(k1, v1)] (fn1 k1 v1 [] σ) ∧
  fails [(k1, v1); (k2, v2)] (fn2 k1 v1 k2 v2 [] σ) ∧
  fails [(k1, v1); (k2, v2); (k3, v3)] (fn3 k1 v1 k2 v2 k3 v3 [] σ) ∧
  fails [(k1, v1); (k2, v2); (k3, v3); (k4, v4)]
    (fn4 k1 v1 k2 v2 k3 v3 k4 v4 [] σ).
Proof.
  intros fails.
  assert (∀ pairs, fails pairs
            (fresh (dom σ), <[fresh (dom σ) := literal_obj pairs]> σ)) as Hgen.
  { intros pairs Hnd k v Hkv Hv. simpl. rewrite deref_insert.
    destruct (literal_obj_fails pairs k v Hnd Hkv Hv)
      as (e & He & k' & v' & Hkv' & Hleaf).
    exists e. split; [done|]. split; [eauto|].
    intros Hrej. rewrite Forall_forall in Hrej.
    destruct (from_leaf_captured v' e (Hrej (k', v') Hkv') Hleaf) as (o & Ho & Hw).
    eauto 6. }
  split; [apply (Hgen [(k1, v1)])|].
  split; [apply (Hgen [(k1, v1); (k2, v2)])|].
  split; [apply (Hgen [(k1, v1); (k2, v2); (k3, v3)])|].
  apply (Hgen [(k1, v1); (k2, v2); (k3, v3); (k4, v4)]).
Qed.

Lemma fnN_defers_invalid_witness :
  let boom := errorString "boom" in
  let bad := Arr [invalidExpr (Some boom)] in
  let r := fn1 "match" bad [] ∅ in
  ∃ e, json_Marshal (deref r.2 r.1) = ("", Some e) ∧
    ∃ k' v' o, (k', v') ∈ [("match", bad)] ∧ o ∈ captured v' ∧
      wraps e (MarshalerError T_invalidExpr (cause o)).
Proof.
  intros boom bad r.
  assert (NoDup [("match", bad)].*1) as Hnd by apply NoDup_singleton.
  assert (("match", bad) ∈ [("match", bad)]) as Hin by left.
  assert (Forall (λ kv : string * value, rejects kv.2 = []) [("match", bad)])
    as Hrej by (repeat constructor).
  destruct (proj1 (fnN_defers_invalid "match" bad "" bad "" bad "" bad ∅)
              Hnd "match" bad Hin eq_refl) as (e & He & _ & Hcap).
  exists e. split; [exact He|exact (Hcap Hrej)].
Defined.

(** X6: a node built earlier can be handed to [fn1] as the value: the
    outer node serializes to the one-member object around the inner node's
    own JSON (or fails with the inner node's error), and the inner node is
    left as it was. *)
Theorem fn1_nests k (inner : loc) (σ : store) :
  let r := fn1 k (deref σ inner) [] σ in
  json_Marshal (deref r.2 r.1) =
    match json_Marshal (deref σ inner) with
    | (b, None) => (object [(k, b)], None)
    | (_, Some e) => ("", Some e)
    end ∧
  (inner ∈ dom σ → r.1 ≠ inner ∧ deref r.2 inner = deref σ inner).
Proof.
  intros r. split.
  - unfold r. simpl. rewrite deref_insert, insert_empty. apply json_Marshal_singleton.
  - intros Hin. unfold r. simpl.
    assert (fresh (dom σ) ≠ inner) as Hne.
    { intros Heq. rewrite <-Heq in Hin. by apply is_fresh in Hin. }
    split; [done|]. unfold deref. by rewrite lookup_total_insert_ne.
Qed.

Lemma fn1_nests_witness :
  let σ : store := {[ 1%positive := {[ "collection" := Lit (string_lit "users") ]} ]} in
  let r := fn1 "get" (deref σ 1%positive) [] σ in
  (1%positive ∈ dom σ) ∧ r.1 ≠ 1%positive ∧
  deref r.2 1%positive = deref σ 1%positive.
Proof.
  intros σ r.
  assert (1%positive ∈ dom σ) as Hin.
  { apply elem_of_dom. eexists. apply lookup_singleton_eq. }
  split; [exact Hin|].
  exact (proj2 (fn1_nests "get" 1%positive σ) Hin).
Defined.

(** ** Modifiers that set keys *)

Lemma applyOptionals_set_keys_object (kes : list (string * value)) fn (σ : store) :
  (applyOptionals (uncurry set_key <$> kes) fn σ).2 !!! fn =
  foldl (λ obj ke, <[ke.1 := ke.2]> obj) (σ !!! fn) kes.
Proof.
  revert σ. induction kes as [|[k e] kes IH]; intros σ; csimpl; [done|].
  by rewrite IH, set_key_object.
Qed.

Lemma foldl_set_dom (kes : list (string * value)) (obj : gmap string value) :
  dom (foldl (λ obj ke, <[ke.1 := ke.2]> obj) obj kes) =
  dom obj ∪ list_to_set kes.*1.
Proof.
  revert obj. induction kes as [|[k e] kes IH]; intros obj; csimpl.
  - set_solver.
  - rewrite IH, dom_insert_L. set_solver.
Qed.

Lemma foldl_set_other (kes : list (string * value)) (obj : gmap string value) k :
  k ∉ kes.*1 →
  foldl (λ obj ke, <[ke.1 := ke.2]> obj) obj kes !! k = obj !! k.
Proof.
  revert obj. induction kes as [|[k' e'] kes IH]; intros obj Hk; csimpl; [done|].
  apply not_elem_of_cons in Hk as [Hk' Hk]. rewrite IH by done.
  by rewrite lookup_insert_ne.
Qed.

Lemma set_key_commute k1 e1 k2 e2 fn (σ : store) :
  k1 ≠ k2 →
  set_key k2 e2 fn (set_key k1 e1 fn σ) = set_key k1 e1 fn (set_key k2 e2 fn σ).
Proof.
  intros Hne. unfold set_key.
  rewrite !lookup_total_insert_eq, !insert_insert_eq. f_equal.
  by apply insert_insert_ne.
Qed.

Lemma set_keys_Permutation (kes kes' : list (string * value)) fn (σ : store) :
  kes ≡ₚ kes' → NoDup kes.*1 →
  applyOptionals (uncurry set_key <$> kes) fn σ =
  applyOptionals (uncurry set_key <$> kes') fn σ.
Proof.
  intros Hperm. revert σ.
  induction Hperm as [|[k e] kes kes' _ IH|[k1 e1] [k2 e2] kes|kes kes' kes'' H1 IH1 H2 IH2];
    intros σ Hnd; csimpl.
  - done.
  - apply NoDup_cons in Hnd as [_ Hnd]. by apply IH.
  - apply NoDup_cons in Hnd as [Hk _]. apply not_elem_of_cons in Hk as [Hne _].
    by rewrite (set_key_commute k1 e1 k2 e2).
  - rewrite IH1 by done. apply IH2. by rewrite <-H1.
Qed.

Lemma set_keys_allocated (kes : list (string * value)) fn (σ : store) :
  fn ∈ dom σ → fn ∈ dom (applyOptionals (uncurry set_key <$> kes) fn σ).2.
Proof.
  revert σ. induction kes as [|[k e] kes IH]; intros σ Hfn; csimpl; [done|].
  apply IH. unfold set_key. rewrite dom_insert_L. set_solver.
Qed.

(** X7: after [fnN] has applied modifiers that each set one key, the keys
    of the node are the supplied keys together with the keys the modifiers
    set (a modifier of this kind never removes a key), and a supplied key
    that no modifier sets still holds its wrapped value. *)
Theorem fnN_keys_after_modifiers k1 v1 k2 v2 k3 v3 k4 v4
    (kes : list (string * value)) (σ : store) :
  let options := uncurry set_key <$> kes in
  let final (pairs : list (string * value)) (r : loc * store) :=
    dom (r.2 !!! r.1) = list_to_set pairs.*1 ∪ list_to_set kes.*1 ∧
    (NoDup pairs.*1 → ∀ k v, (k, v) ∈ pairs → k ∉ kes.*1 →
       (r.2 !!! r.1) !! k = Some (wrap v)) in
  final [(k1, v1)] (fn1 k1 v1 options σ) ∧
  final [(k1, v1); (k2, v2)] (fn2 k1 v1 k2 v2 options σ) ∧
  final [(k1, v1); (k2, v2); (k3, v3)] (fn3 k1 v1 k2 v2 k3 v3 options σ) ∧
  final [(k1, v1); (k2, v2); (k3, v3); (k4, v4)]
    (fn4 k1 v1 k2 v2 k3 v3 k4 v4 options σ).
Proof.
  intros options final.
  assert (∀ pairs, final pairs
    (applyOptionals options (fresh (dom σ))
       (<[fresh (dom σ) := literal_obj pairs]> σ))) as Hgen.
  { intros pairs.
    set (r := applyOptionals options (fresh (dom σ))
                (<[fresh (dom σ) := literal_obj pairs]> σ)).
    assert (r.1 = fresh (dom σ)) as Hr1.
    { unfold r. by rewrite applyOptionals_foldl. }
    assert (r.2 !!! fresh (dom σ) =
            foldl (λ obj ke, <[ke.1 := ke.2]> obj) (literal_obj pairs) kes) as Hr2.
    { unfold r, options.
      by rewrite applyOptionals_set_keys_object, lookup_total_insert_eq. }
    unfold final. rewrite Hr1, Hr2. split.
    - by rewrite foldl_set_dom, literal_obj_dom.
    - intros Hnd k v Hkv Hk. rewrite foldl_set_other by done.
      by apply literal_obj_lookup. }
  split; [apply (Hgen [(k1, v1)])|].
  split; [apply (Hgen [(k1, v1); (k2, v2)])|].
  split; [apply (Hgen [(k1, v1); (k2, v2); (k3, v3)])|].
  apply (Hgen [(k1, v1); (k2, v2); (k3, v3); (k4, v4)]).
Qed.

Lemma fnN_keys_after_modifiers_witness :
  let one := Lit (int_lit 1) in
  let r := fn2 "get" one "ts" one (uncurry set_key <$> [("ttl", one)]) ∅ in
  (r.2 !!! r.1) !! "get" = Some (wrap one).
Proof.
  intros one r.
  assert (NoDup [("get", one); ("ts", one)].*1) as Hnd.
  { cbn. apply NoDup_cons. split.
    - rewrite not_elem_of_cons. split; [done|apply not_elem_of_nil].
    - apply NoDup_singleton. }
  assert (("get", one) ∈ [("get", one); ("ts", one)]) as Hin by left.
  assert ("get" ∉ [("ttl", one)].*1) as Hk.
  { cbn. rewrite not_elem_of_cons. split; [done|apply not_elem_of_nil]. }
  exact (proj2 (proj1 (proj2 (fnN_keys_after_modifiers "get" one "ts" one
           "" one "" one [("ttl", one)] ∅))) Hnd "get" one Hin Hk).
Defined.

(** X8: modifiers that set pairwise distinct keys can be supplied in any
    order: [applyOptionals], and so [fn1] .. [fn4], end with the same
    object. *)
Theorem set_key_modifiers_commute k1 v1 k2 v2 k3 v3 k4 v4
    (kes kes' : list (string * value)) fn (σ : store) :
  kes ≡ₚ kes' → NoDup kes.*1 →
  let options := uncurry set_key <$> kes in
  let options' := uncurry set_key <$> kes' in
  applyOptionals options fn σ = applyOptionals options' fn σ ∧
  fn1 k1 v1 options σ = fn1 k1 v1 options' σ ∧
  fn2 k1 v1 k2 v2 options σ = fn2 k1 v1 k2 v2 options' σ ∧
  fn3 k1 v1 k2 v2 k3 v3 options σ = fn3 k1 v1 k2 v2 k3 v3 options' σ ∧
  fn4 k1 v1 k2 v2 k3 v3 k4 v4 options σ = fn4 k1 v1 k2 v2 k3 v3 k4 v4 options' σ.
Proof.
  intros Hperm Hnd options options'.
  unfold options, options', fn1, fn2, fn3, fn4, alloc.
  repeat split; by apply set_keys_Permutation.
Qed.

Lemma set_key_modifiers_commute_witness :
  let one := Lit (int_lit 1) in
  let two := Lit (int_lit 2) in
  fn1 "paginate" one (uncurry set_key <$> [("size", one); ("after", two)]) ∅ =
  fn1 "paginate" one (uncurry set_key <$> [("after", two); ("size", one)]) ∅.
Proof.
  intros one two.
  assert ([("size", one); ("after", two)] ≡ₚ [("after", two); ("size", one)])
    as Hperm by apply Permutation_swap.
  assert (NoDup [("size", one); ("after", two)].*1) as Hnd.
  { cbn. apply NoDup_cons. split.
    - rewrite not_elem_of_cons. split; [done|apply not_elem_of_nil].
    - apply NoDup_singleton. }
  exact (proj1 (proj2 (set_key_modifiers_commute "paginate" one "" one "" one
           "" one _ _ 1%positive ∅ Hperm Hnd))).
Defined.

(** X9: modifiers can be applied in two batches: [applyOptionals] on the
    concatenation is [applyOptionals] on the second batch after the first,
    and [fnN] with the concatenation is [fnN] with the first batch followed
    by [applyOptionals] with the second on the node it returned. *)
Theorem applyOptionals_batches k1 v1 k2 v2 k3 v3 k4 v4
    (options1 options2 : list OptionalParameter) fn (σ : store) :
  let then_second (r : loc * store) := applyOptionals options2 r.1 r.2 in
  applyOptionals (options1 ++ options2) fn σ =
    then_second (applyOptionals options1 fn σ) ∧
  fn1 k1 v1 (options1 ++ options2) σ = then_second (fn1 k1 v1 options1 σ) ∧
  fn2 k1 v1 k2 v2 (options1 ++ options2) σ =
    then_second (fn2 k1 v1 k2 v2 options1 σ) ∧
  fn3 k1 v1 k2 v2 k3 v3 (options1 ++ options2) σ =
    then_second (fn3 k1 v1 k2 v2 k3 v3 options1 σ) ∧
  fn4 k1 v1 k2 v2 k3 v3 k4 v4 (options1 ++ options2) σ =
    then_second (fn4 k1 v1 k2 v2 k3 v3 k4 v4 options1 σ).
Proof.
  intros then_second.
  assert (∀ fn (σ : store), applyOptionals (options1 ++ options2) fn σ =
            then_second (applyOptionals options1 fn σ)) as Happ.
  { intros fn' σ'. unfold then_second. rewrite applyOptionals_app.
    by rewrite (applyOptionals_foldl options1) at 2. }
  unfold fn1, fn2, fn3, fn4, alloc. repeat split; apply Happ.
Qed.

(** ** Nodes built one after the other *)

Lemma built_allocated obj (kes : list (string * value)) (σ : store) :
  let r := applyOptionals (uncurry set_key <$> kes) (fresh (dom σ))
             (<[fresh (dom σ) := obj]> σ) in
  r.1 ∈ dom r.2.
Proof.
  intros r. unfold r. rewrite applyOptionals_foldl at 1. simpl.
  apply set_keys_allocated. rewrite dom_insert_L. set_solver.
Qed.

Lemma built_later_frame obj' options (σ1 : store) l :
  Forall local options → l ∈ dom σ1 →
  let r2 := applyOptionals options (fresh (dom σ1)) (<[fresh (dom σ1) := obj']> σ1) in
  r2.1 ≠ l ∧ r2.2 !! l = σ1 !! l ∧
  json_Marshal (deref r2.2 l) = json_Marshal (deref σ1 l).
Proof.
  intros Hopts Hl r2.
  destruct (alloc_applyOptionals_frame obj' options σ1 Hopts) as (_ & Hfresh & Hframe).
  fold r2 in Hfresh, Hframe.
  split; [by intros Heq; rewrite Heq in Hfresh|].
  split; [by apply Hframe|].
  unfold deref. by rewrite !lookup_total_alt, Hframe.
Qed.

(** X10: two nodes built one after the other are different objects, and
    building the second (with modifiers that write only to the object they
    are handed) leaves the first, and its serialization, as they were.  The
    first node is built with modifiers that each set one key. *)
Theorem fnN_nodes_independent k1 v1 k2 v2 k3 v3 k4 v4
    (kes : list (string * value))
    k1' v1' k2' v2' k3' v3' k4' v4' (options : list OptionalParameter) (σ : store) :
  Forall local options →
  let first : list (store → loc * store) :=
    [fn1 k1 v1 (uncurry set_key <$> kes);
     fn2 k1 v1 k2 v2 (uncurry set_key <$> kes);
     fn3 k1 v1 k2 v2 k3 v3 (uncurry set_key <$> kes);
     fn4 k1 v1 k2 v2 k3 v3 k4 v4 (uncurry set_key <$> kes)] in
  let second : list (store → loc * store) :=
    [fn1 k1' v1' options;
     fn2 k1' v1' k2' v2' options;
     fn3 k1' v1' k2' v2' k3' v3' options;
     fn4 k1' v1' k2' v2' k3' v3' k4' v4' options] in
  ∀ build1 build2, build1 ∈ first → build2 ∈ second →
    let r1 := build1 σ in
    let r2 := build2 r1.2 in
    r2.1 ≠ r1.1 ∧
    r2.2 !! r1.1 = r1.2 !! r1.1 ∧
    json_Marshal (deref r2.2 r1.1) = json_Marshal (deref r1.2 r1.1).
Proof.
  intros Hopts first second build1 build2 H1 H2 r1 r2.
  assert (r1.1 ∈ dom r1.2) as Halloc.
  { unfold r1, first in *.
    repeat (apply elem_of_cons in H1 as [->|H1]); [..|by apply elem_of_nil in H1];
      apply built_allocated. }
  unfold r2, second in *.
  repeat (apply elem_of_cons in H2 as [->|H2]); [..|by apply elem_of_nil in H2];
    unfold fn1, fn2, fn3, fn4, alloc; by apply built_later_frame.
Qed.

Lemma fnN_nodes_independent_witness :
  let one := Lit (int_lit 1) in
  let options := [set_key "ttl" one] in
  let r1 := fn1 "get" one (uncurry set_key <$> [("ts", one)]) ∅ in
  let r2 := fn2 "paginate" one "size" one options r1.2 in
  Forall local options ∧
  r2.1 ≠ r1.1 ∧
  r2.2 !! r1.1 = r1.2 !! r1.1 ∧
  json_Marshal (deref r2.2 r1.1) = json_Marshal (deref r1.2 r1.1).
Proof.
  intros one options r1 r2.
  assert (Forall local options) as Hopts.
  { repeat constructor. apply set_key_local. }
  split; [exact Hopts|].
  apply (fnN_nodes_independent "get" one "" one "" one "" one [("ts", one)]
           "paginate" one "size" one "" one "" one options ∅ Hopts).
  - left.
  - right. left.
Defined.

(** ** A modifier can replace a supplied pair *)

(** X11: in the node [fnN] returns, the value of a key is the one set by
    the last modifier that set it, whatever came before, also when the key
    is one of the supplied keys: a modifier replaces the wrapped value of a
    supplied pair. *)
Theorem fnN_modifier_overrides k1 v1 k2 v2 k3 v3 k4 v4
    (options : list OptionalParameter) k e (kes : list (string * value)) (σ : store) :
  k ∉ kes.*1 →
  let all := (options ++ set_key k e :: (uncurry set_key <$> kes))%list in
  let holds (r : loc * store) := (r.2 !!! r.1) !! k = Some e in
  holds (fn1 k1 v1 all σ) ∧
  holds (fn2 k1 v1 k2 v2 all σ) ∧
  holds (fn3 k1 v1 k2 v2 k3 v3 all σ) ∧
  holds (fn4 k1 v1 k2 v2 k3 v3 k4 v4 all σ).
Proof.
  intros Hk all holds.
  assert (∀ fn (σ' : store), holds (applyOptionals all fn σ')) as Hgen.
  { intros fn σ'. unfold holds.
    assert ((applyOptionals all fn σ').1 = fn) as ->
      by by rewrite applyOptionals_foldl.
    by apply applyOptionals_last_wins. }
  unfold fn1, fn2, fn3, fn4, alloc. repeat split; apply Hgen.
Qed.

Lemma fnN_modifier_overrides_witness :
  let one := Lit (int_lit 1) in
  let two := Lit (int_lit 2) in
  let r := fn1 "size" one ([] ++ set_key "size" two ::
                           (uncurry set_key <$> [("after", one)]))%list ∅ in
  (r.2 !!! r.1) !! "size" = Some two.
Proof.
  intros one two r.
  assert ("size" ∉ [("after", one)].*1) as Hk.
  { cbn. rewrite not_elem_of_cons. split; [done|apply not_elem_of_nil]. }
  exact (proj1 (fnN_modifier_overrides "size" one "" one "" one "" one
           [] "size" two [("after", one)] ∅ Hk)).
Defined.

(** ** The first failing element decides the error of an array *)

Lemma sequence_first_Fail {A} (xs : list A) e (rs : list (res A)) :
  sequence ((Ok <$> xs) ++ Fail e :: rs)%list = Fail e.
Proof. induction xs as [|x xs IH]; csimpl; [done|]. by rewrite IH. Qed.

Lemma sliceEncoder_first_Fail (f : value → res string) (g : value → string)
    (elems : list value) bad e (rest : list value) :
  Forall (λ v, f v = Ok (g v)) elems → f bad = Fail e →
  sliceEncoder (f <$> (elems ++ bad :: rest)%list) = Fail e.
Proof.
  intros Helems Hbad. unfold sliceEncoder.
  rewrite fmap_app, fmap_cons, Hbad.
  rewrite (Forall_fmap_ext_1 f (Ok ∘ g) elems) by done.
  by rewrite list_fmap_compose, sequence_first_Fail.
Qed.

Lemma reflectValue_of_success v :
  (json_Marshal v).2 = None → reflectValue false v = Ok (json_Marshal v).1.
Proof. unfold json_Marshal. by destruct (reflectValue false v). Qed.

(** X12: when the wrapped elements of an [Arr] before some position all
    serialize and serializing the wrapped element at that position fails,
    then [MarshalJSON] of the array returns no bytes and that element's
    error, unchanged, whatever follows; [String] is then the empty
    string. *)
Theorem Arr_first_failure (elems : list value) bad (rest : list value) e :
  Forall (λ v, (json_Marshal (wrap v)).2 = None) elems →
  (json_Marshal (wrap bad)).2 = Some e →
  Arr_MarshalJSON (elems ++ bad :: rest)%list = ("", Some e) ∧
  Arr_String (elems ++ bad :: rest)%list = "".
Proof.
  intros Helems Hbad.
  assert (Arr_MarshalJSON (elems ++ bad :: rest)%list = ("", Some e)) as HM.
  { unfold Arr_MarshalJSON, json_Marshal. simpl. rewrite <-list_fmap_compose.
    rewrite (sliceEncoder_first_Fail _ (λ v, (json_Marshal (wrap v)).1)
               elems bad e rest); [done| |].
    - eapply Forall_impl; [exact Helems|]. intros v Hv. simpl.
      by apply reflectValue_of_success.
    - simpl. unfold json_Marshal in Hbad.
      destruct (reflectValue false (wrap bad)); simplify_eq/=. done. }
  split; [done|]. unfold Arr_String. by rewrite HM.
Qed.

Lemma Arr_first_failure_witness :
  let boom := errorString "boom" in
  let late := errorString "late" in
  let arr := ([Lit (int_lit 1)] ++ invalidExpr (Some boom) ::
              [invalidExpr (Some late)])%list in
  Arr_MarshalJSON arr = ("", Some (MarshalerError T_invalidExpr boom)) ∧
  Arr_String arr = "".
Proof.
  intros boom late arr.
  apply (Arr_first_failure [Lit (int_lit 1)] (invalidExpr (Some boom))
           [invalidExpr (Some late)] (MarshalerError T_invalidExpr boom)).
  - repeat constructor.
  - reflexivity.
Defined.
